(** * The tree model core of Theia: tree registry, selection state machine
      and selection service.

    Sources: [packages/core/src/browser/tree/tree.ts] ([TreeImpl]),
    [tree-selection-state.ts] ([TreeSelectionState]),
    [tree-selection.ts] ([TreeSelectionServiceImpl]),
    [test/mock-tree-model.ts] (the fixture of the selection tests) and the
    twelve selection state tests that come with them. *)

From stdpp Require Import gmap strings list.

Set Warnings "-register-all,-clear-no-such-hyp".

(** * Objects

    A tree node is a JavaScript object.  Its identity is the address [addr]
    it was allocated at: [===] on two nodes compares addresses, never
    contents.  The members the tree core reads are kept with the node:
    [id], the address of the [parent] object, [selectable] for whether the
    object has a [selected] member at all ([SelectableTreeNode.is]),
    [expanded] for the optional member of an expandable node and [children]
    for the optional member of a composite one.  The current value of the
    mutable [selected] member lives in a store of its own, see [Selected]
    below.  The members [name], [icon], [description] and [visible] are read
    by nothing in this development and are left out. *)

Inductive TreeNode : Type := mkTreeNode {
  addr : nat;
  id : string;
  parent : option nat;
  selectable : bool;
  expanded : option bool;
  children : option (list TreeNode)
}.

(** [left === right] *)
Definition same (left right : TreeNode) : bool := Nat.eqb (addr left) (addr right).

(** [Array.prototype.indexOf] on an array of objects: the first index whose
    element is identical to [x], or [-1]. *)
Fixpoint indexOf_from (x : TreeNode) (l : list TreeNode) (i : Z) : Z :=
  match l with
  | [] => (-1)%Z
  | y :: l' => if same y x then i else indexOf_from x l' (i + 1)%Z
  end.

Definition indexOf (l : list TreeNode) (x : TreeNode) : Z := indexOf_from x l 0.

Module CompositeTreeNode.

(** [!!node && 'children' in node] *)
Definition is_ (node : option TreeNode) : bool :=
  match node with
  | Some n => bool_decide (is_Some (children n))
  | None => false
  end.

End CompositeTreeNode.

Module SelectableTreeNode.

(** [!!node && 'selected' in node] *)
Definition is_ (node : option TreeNode) : bool :=
  match node with
  | Some n => selectable n
  | None => false
  end.

End SelectableTreeNode.

Module ExpandableTreeNode.

(** Modelled from the spec: the namespace [ExpandableTreeNode] of
    [tree-expansion.ts], which is not among the sources.  An expandable node
    is a composite node with an [expanded] member. *)
Definition is_ (node : option TreeNode) : bool :=
  match node with
  | Some n => CompositeTreeNode.is_ node && bool_decide (is_Some (expanded n))
  | None => false
  end.

(** Modelled from the spec: [ExpandableTreeNode.isCollapsed] of the same
    missing file.  An expandable node is collapsed when its [expanded]
    member is false. *)
Definition isCollapsed (node : option TreeNode) : bool :=
  match node with
  | Some n => is_ node && negb (default false (expanded n))
  | None => false
  end.

End ExpandableTreeNode.

(** * TreeImpl ([tree.ts]) *)

(** What the two emitters of the tree fire. *)
Inductive TreeEvent : Type :=
  | Changed
  | NodeRefreshed (parent : TreeNode).

(** A promise reaction waiting in the microtask queue: the callback
    [children => this.setChildren(parent, children)] of [refresh], together
    with the value its promise was resolved with. *)
Record Job : Type := mkJob {
  job_parent : TreeNode;
  job_children : list TreeNode
}.

(** The state of a [TreeImpl]: its two fields, what its emitters have fired
    so far (oldest first) and the reactions it has scheduled that have not
    run yet (oldest first).  The index [nodes] is a plain object used as a
    map from ids to nodes; ids are taken to be different from the member
    names every object inherits. *)
Record TreeImpl : Type := mkTreeImpl {
  _root : option TreeNode;
  nodes : gmap string TreeNode;
  fired : list TreeEvent;
  microtasks : list Job
}.

Definition newTreeImpl : TreeImpl :=
  {| _root := None; nodes := ∅; fired := []; microtasks := [] |}.

Definition fireChanged (t : TreeImpl) : TreeImpl :=
  {| _root := _root t; nodes := nodes t;
     fired := fired t ++ [Changed]; microtasks := microtasks t |}.

Definition fireNodeRefreshed (parent : TreeNode) (t : TreeImpl) : TreeImpl :=
  fireChanged
    {| _root := _root t; nodes := nodes t;
       fired := fired t ++ [NodeRefreshed parent]; microtasks := microtasks t |}.

Definition getNode (t : TreeImpl) (id : option string) : option TreeNode :=
  match id with
  | Some i => nodes t !! i
  | None => None
  end.

Definition validateNode (t : TreeImpl) (node : option TreeNode) : option TreeNode :=
  let id := match node with Some n => Some (id n) | None => None end in
  getNode t id.

(** [removeNode] and [addNode], on the index they work on. *)
Fixpoint removeNode_index (node : TreeNode) (idx : gmap string TreeNode)
  : gmap string TreeNode :=
  let idx :=
    match children node with
    | Some cs => fold_left (fun acc child => removeNode_index child acc) cs idx
    | None => idx
    end in
  delete (id node) idx.

Fixpoint addNode_index (node : TreeNode) (idx : gmap string TreeNode)
  : gmap string TreeNode :=
  let idx := <[id node := node]> idx in
  match children node with
  | Some cs => fold_left (fun acc child => addNode_index child acc) cs idx
  | None => idx
  end.

Definition with_nodes (t : TreeImpl) (idx : gmap string TreeNode) : TreeImpl :=
  {| _root := _root t; nodes := idx; fired := fired t; microtasks := microtasks t |}.

Definition removeNode (node : option TreeNode) (t : TreeImpl) : TreeImpl :=
  match node with
  | Some n => with_nodes t (removeNode_index n (nodes t))
  | None => t
  end.

Definition addNode (node : option TreeNode) (t : TreeImpl) : TreeImpl :=
  match node with
  | Some n => with_nodes t (addNode_index n (nodes t))
  | None => t
  end.

(** [parent.children = children]: the object at address [a] gets a new
    [children] member, and every path that leads to the object sees it. *)
Fixpoint assign_children (a : nat) (cs : list TreeNode) (n : TreeNode) : TreeNode :=
  match n with
  | mkTreeNode ad i p s e ch =>
      if Nat.eqb ad a then mkTreeNode ad i p s e (Some cs)
      else mkTreeNode ad i p s e
             (match ch with
              | Some l => Some (List.map (assign_children a cs) l)
              | None => None
              end)
  end.

Definition setChildren (parent : TreeNode) (children : list TreeNode) (t : TreeImpl)
  : TreeImpl :=
  let t := removeNode (Some parent) t in
  let parent' := assign_children (addr parent) children parent in
  let t := {| _root := option_map (assign_children (addr parent) children) (_root t);
              nodes := assign_children (addr parent) children <$> nodes t;
              fired := fired t; microtasks := microtasks t |} in
  let t := addNode (Some parent') t in
  fireNodeRefreshed parent' t.

(** [Promise.resolve(Array.from(parent.children))] *)
Definition resolveChildren (parent : TreeNode) : list TreeNode :=
  default [] (children parent).

(** [!raw ? this._root : this.validateNode(raw)] *)
Definition refreshParent (raw : option TreeNode) (t : TreeImpl) : option TreeNode :=
  match raw with
  | None => _root t
  | Some _ => validateNode t raw
  end.

Definition refresh (raw : option TreeNode) (t : TreeImpl) : TreeImpl :=
  let parent := refreshParent raw t in
  let t :=
    match parent with
    | Some p =>
        if CompositeTreeNode.is_ parent
        then {| _root := _root t; nodes := nodes t; fired := fired t;
                microtasks := microtasks t ++ [mkJob p (resolveChildren p)] |}
        else t
    | None => t
    end in
  fireChanged t.

(** [set root(root)] *)
Definition set_root (root : option TreeNode) (t : TreeImpl) : TreeImpl :=
  let t := {| _root := root; nodes := ∅; fired := fired t; microtasks := microtasks t |} in
  let t := addNode root t in
  refresh None t.

(** Running one reaction, the oldest one of the queue, and a number of
    them in a row. *)
Definition runJob (j : Job) (t : TreeImpl) : TreeImpl :=
  setChildren (job_parent j) (job_children j) t.

Definition runMicrotask (t : TreeImpl) : TreeImpl :=
  match microtasks t with
  | [] => t
  | j :: rest =>
      runJob j {| _root := _root t; nodes := nodes t; fired := fired t; microtasks := rest |}
  end.

Fixpoint runMicrotasks (turns : nat) (t : TreeImpl) : TreeImpl :=
  match turns with
  | O => t
  | S k => runMicrotasks k (runMicrotask t)
  end.

(** * The iterator *)

(** Modelled from the spec: [DepthFirstTreeIterator] of [tree-iterator.ts],
    which [tree-selection-state.ts] imports and which is not among the
    sources.  The spec describes it as a depth-first, pre-order traversal of
    the whole tree that prunes collapsed subtrees when [pruneCollapsed] is
    set: a node comes before its children, the children come in their
    order, and the children of a collapsed node are left out. *)
Fixpoint DepthFirstTreeIterator (pruneCollapsed : bool) (root : TreeNode) : list TreeNode :=
  root ::
    match children root with
    | Some cs =>
        if pruneCollapsed && ExpandableTreeNode.isCollapsed (Some root) then []
        else flat_map (DepthFirstTreeIterator pruneCollapsed) cs
    | None => []
    end.

(** The nodes of the tree: everything below the root, collapsed or not. *)
Definition treeNodes (t : TreeImpl) : list TreeNode :=
  match _root t with
  | Some root => DepthFirstTreeIterator false root
  | None => []
  end.

(** * The fixture of the selection tests ([test/mock-tree-model.ts]) *)

Module MockTreeModel.

Inductive Node : Type :=
  | node (id : string) (children : option (list Node)).

(** [Node.toTreeNode(root, parent)].  The object literal is allocated at
    the next free address [next] before the children are built; the result
    comes with the next free address after the whole subtree. *)
Fixpoint toTreeNode (root : Node) (parent : option nat) (next : nat) : TreeNode * nat :=
  match root with
  | node id cs =>
      let self := next in
      let build :=
        fix build (l : list Node) (next : nat) : list TreeNode * nat :=
          match l with
          | [] => ([], next)
          | child :: l' =>
              let '(n, next) := toTreeNode child (Some self) next in
              let '(ns, next) := build l' next in
              (n :: ns, next)
          end in
      let '(children, next') :=
        match cs with
        | Some l => build l (S next)
        | None => ([], S next)
        end in
      match children with
      | [] => (mkTreeNode self id parent true None (Some []), next')
      | _ => (mkTreeNode self id parent true (Some true) (Some children), next')
      end
  end.

Definition leaf (id : string) : Node := node id None.

Definition MOCK_ROOT : TreeNode :=
  fst (toTreeNode
    (node "1" (Some [
       node "1.1" (Some [leaf "1.1.1"; leaf "1.1.2"]);
       node "1.2" (Some [
         node "1.2.1" (Some [leaf "1.2.1.1"; leaf "1.2.1.2"]);
         leaf "1.2.2";
         leaf "1.2.3"]);
       leaf "1.3"]))
    None 0).

End MockTreeModel.

(** The tree of the tests after [model.root = MockTreeModel.MOCK_ROOT()] and
    the refresh the setter starts.  The tests go through the [TreeModelImpl]
    facade, which hands [root], [getNode] and [validateNode] on to this
    tree. *)
Definition mockTree : TreeImpl :=
  runMicrotasks 1 (set_root (Some MockTreeModel.MOCK_ROOT) newTreeImpl).

(** A node object that was never put into the fixture. *)
Definition strayNode : TreeNode :=
  {| addr := 11; id := "2"; parent := None; selectable := true;
     expanded := None; children := None |}.

(** * Selections ([tree-selection.ts]) *)

Inductive SelectionType : Type := DEFAULT | TOGGLE | RANGE.

(** The optional member [type?: SelectionType] of a selection: missing,
    present with the value [undefined], or present with a selection type.
    The first two both read as [undefined], but an object spread copies
    only the second. *)
Inductive OptionalType : Type :=
  | Absent
  | Undefined
  | Of (ty : SelectionType).

Record TreeSelection : Type := mkTreeSelection {
  node : TreeNode;
  type : OptionalType
}.

Definition toggleOf (n : TreeNode) : TreeSelection := {| node := n; type := Of TOGGLE |}.
Definition rangeOf (n : TreeNode) : TreeSelection := {| node := n; type := Of RANGE |}.

(** * Exceptions *)

Inductive Error : Type :=
  | UnexpectedSelectionType     (* [Unexpected tree selection type: ...] *)
  | UnexpectedDefaultSelection. (* [Unexpected DEFAULT selection type. ...] *)

Inductive Result (A : Type) : Type :=
  | Ok (a : A)
  | Throw (e : Error).
Arguments Ok {A} a.
Arguments Throw {A} e.

#[global] Instance Result_ret : MRet Result := fun _ a => Ok a.
#[global] Instance Result_bind : MBind Result := fun _ _ f m =>
  match m with
  | Ok a => f a
  | Throw e => Throw e
  end.

(** * TreeSelectionState ([tree-selection-state.ts])

    A state holds a reference to the tree and its stack.  The tree is the
    one shared [TreeImpl]; what a method reads from it is its state at the
    time of the call, which the functions below take as [t]. *)

Record TreeSelectionState : Type := mkState {
  selectionStack : list TreeSelection
}.

(** [new TreeSelectionState(tree)] *)
Definition emptyState : TreeSelectionState := mkState [].

Section WithTree.

Variable t : TreeImpl.

(** The [for ... of] loop of [selectionRange] over the nodes the iterator
    yields, as long as [finished] is false. *)
Fixpoint collectRange (from to : TreeNode) (started : bool) (it : list TreeNode)
  : list TreeNode :=
  match it with
  | [] => []
  | n :: it' =>
      if same n from || same n to then
        if started then [n] else n :: collectRange from to true it'
      else
        if started then n :: collectRange from to started it'
        else collectRange from to started it'
  end.

Definition selectionRange (fromNode : option TreeNode) (toNode : TreeNode)
  : list TreeNode :=
  match fromNode with
  | None => []
  | Some fromNode =>
      if same toNode fromNode then [toNode] else
      match _root t with
      | None => []
      | Some root =>
          match validateNode t (Some toNode) with
          | None => []
          | Some to =>
              match validateNode t (Some fromNode) with
              | None => []
              | Some from =>
                  let range :=
                    collectRange from to false (DepthFirstTreeIterator true root) in
                  let range :=
                    if bool_decide (indexOf range from > indexOf range to)%Z
                    then reverse range else range in
                  List.filter (fun n => SelectableTreeNode.is_ (Some n)) range
              end
          end
      end
  end.

(** [selection.type === undefined || selection.type === DEFAULT] *)
Definition isDefault (selection : TreeSelection) : bool :=
  match type selection with
  | Absent | Undefined | Of DEFAULT => true
  | Of TOGGLE | Of RANGE => false
  end.

Definition checkNoDefaultSelection (selections : list TreeSelection)
  : Result (list TreeSelection) :=
  if existsb isDefault selections then Throw UnexpectedDefaultSelection
  else Ok selections.

(** [Array.from(new Set(l).keys())]: the elements of [l] in the order of
    their first occurrence. *)
Definition setKeys (l : list TreeNode) : list TreeNode :=
  fold_left (fun keys n => if existsb (same n) keys then keys else keys ++ [n]) l [].

(** One round of the loop of [selectedNodes]: the array [nodes] and
    [lastSelection] before and after the entry [copy[i]]. *)
Definition selectedNodes_step (acc : list TreeNode * option TreeSelection)
    (selection : TreeSelection) : list TreeNode * option TreeSelection :=
  let '(nodes, lastSelection) := acc in
  let nodes :=
    match type selection with
    | Of RANGE =>
        let nodes :=
          match lastSelection with
          | Some {| type := Of TOGGLE |} => removelast nodes
          | _ => nodes
          end in
        nodes ++ selectionRange (node <$> lastSelection) (node selection)
    | Of TOGGLE => nodes ++ [node selection]
    | _ => nodes
    end in
  (nodes, Some selection).

Definition selectedNodes (state : TreeSelectionState) : Result (list TreeNode) :=
  copy ← checkNoDefaultSelection (selectionStack state);
  let '(nodes, _) := fold_left selectedNodes_step copy ([], None) in
  Ok (setKeys (reverse nodes)).

Definition handleDefault (state : TreeSelectionState) (selectedNode : TreeNode)
  : Result TreeSelectionState :=
  Ok (mkState [ {| node := selectedNode; type := Of TOGGLE |} ]).

(** [(copy[i - 1] || {}).node] *)
Definition nodeBefore (copy : list TreeSelection) (i : nat) : option TreeNode :=
  match i with
  | O => None
  | S j => node <$> copy !! j
  end.

(** The first loop of [handleToggle], rounds [i = n - 1] down to [0]: the
    stack the method returns from inside the loop, if it does. *)
Fixpoint splitRange (copy : list TreeSelection) (selectedNode : TreeNode) (n : nat)
  : option (list TreeSelection) :=
  match n with
  | O => None
  | S i =>
      let lastSelection := nodeBefore copy i in
      match copy !! i with
      | Some {| node := node; type := Of RANGE |} =>
          let range := selectionRange lastSelection node in
          let index := indexOf range selectedNode in
          if bool_decide (index ≠ (-1)%Z) then
            let range := delete (Z.to_nat index) range in
            let rangeSubstitute := List.map toggleOf range in
            let rangeSubstitute := tail rangeSubstitute in
            Some (take i copy ++ rangeSubstitute ++ drop (S i) copy)
          else splitRange copy selectedNode i
      | _ => splitRange copy selectedNode i
      end
  end.

(** The second loop of [handleToggle], rounds [i = n - 1] down to [0]: what
    it pushes to [toRemove]. *)
Fixpoint toggleMatches (copy : list TreeSelection) (selectedNode : TreeNode) (n : nat)
  : list nat :=
  match n with
  | O => []
  | S i =>
      match copy !! i with
      | Some {| node := node; type := type |} =>
          match type with
          | Of RANGE => []
          | _ =>
              if same node selectedNode
              then i :: toggleMatches copy selectedNode i
              else toggleMatches copy selectedNode i
          end
      | None => []
      end
  end.

(** [toRemove.forEach(index => copy.splice(index, 1))] *)
Definition spliceAll (toRemove : list nat) (copy : list TreeSelection)
  : list TreeSelection :=
  fold_left (fun copy index => delete index copy) toRemove copy.

Definition handleToggle (state : TreeSelectionState) (selectedNode : TreeNode)
  : Result TreeSelectionState :=
  copy ← checkNoDefaultSelection (selectionStack state);
  let sole :=
    match copy with
    | [ {| node := node; type := type |} ] =>
        match type with
        | Of TOGGLE => same node selectedNode
        | _ => false
        end
    | _ => false
    end in
  if sole then Ok state else
  match splitRange copy selectedNode (length copy) with
  | Some copy => Ok (mkState copy)
  | None =>
      let toggle := toggleOf selectedNode in
      let toRemove := toggleMatches copy selectedNode (length copy) in
      let copy := spliceAll toRemove copy in
      if bool_decide (Z.of_nat (length toRemove) > 0)%Z
      then Ok (mkState copy)
      else Ok (mkState (copy ++ [toggle]))
  end.

(** The loop of [handleRange], rounds [i = n - 1] down to [0]: the array
    [copy] after the loop and what the loop pushes to [toRemove]. *)
Fixpoint rangeMatches (copy : list TreeSelection) (lastSelection : option TreeNode)
    (range : TreeSelection) (n : nat) : list TreeSelection * list nat :=
  match n with
  | O => (copy, [])
  | S i =>
      let rangeNodes := selectionRange lastSelection (node range) in
      match copy !! i with
      | Some {| node := node; type := type |} =>
          match type with
          | Of RANGE =>
              if bool_decide (Z.of_nat i = Z.of_nat (length copy) - 1)%Z
              then (removelast copy, [])
              else (copy, [])
          | _ =>
              let index := indexOf rangeNodes node in
              let '(copy', toRemove) := rangeMatches copy lastSelection range i in
              if bool_decide (index ≠ (-1)%Z)
              then (copy', i :: toRemove)
              else (copy', toRemove)
          end
      | None => (copy, [])
      end
  end.

Definition handleRange (state : TreeSelectionState) (selectedNode : TreeNode)
  : Result TreeSelectionState :=
  copy ← checkNoDefaultSelection (selectionStack state);
  let range := rangeOf selectedNode in
  let lastSelection := node <$> last copy in
  let '(copy, toRemove) := rangeMatches copy lastSelection range (length copy) in
  let toRemove := tail toRemove in
  let copy := spliceAll toRemove copy in
  Ok (mkState (copy ++ [range])).

Definition nextState (state : TreeSelectionState) (selection : TreeSelection)
  : Result TreeSelectionState :=
  let type :=
    match type selection with
    | Absent => Of DEFAULT
    | ty => ty
    end in
  match type with
  | Of DEFAULT => handleDefault state (node selection)
  | Of TOGGLE => handleToggle state (node selection)
  | Of RANGE => handleRange state (node selection)
  | _ => Throw UnexpectedSelectionType
  end.

End WithTree.

(** The states the machine can be in: the empty one, and every state a
    [nextState] call returns, on whatever the tree is at the time. *)
Inductive reachable : TreeSelectionState → Prop :=
  | reachable_empty : reachable emptyState
  | reachable_next t s selection s' :
      reachable s → nextState t s selection = Ok s' → reachable s'.

(** * TreeSelectionServiceImpl ([tree-selection.ts])

    The service holds the current state and an emitter; [selectionChanged]
    lists what the emitter has fired, oldest first.  The [selected] members
    of the node objects are one store shared by everybody who holds a node:
    the set [Selected] of the addresses whose member is [true]. *)

Record TreeSelectionServiceImpl : Type := mkService {
  state : TreeSelectionState;
  selectionChanged : list (list TreeNode)
}.

Abbreviation Selected := (gset nat).

(** [init()] *)
Definition newService : TreeSelectionServiceImpl :=
  {| state := emptyState; selectionChanged := [] |}.

(** [node.selected] *)
Definition selected (heap : Selected) (node : TreeNode) : bool :=
  bool_decide (addr node ∈ heap).

(** [nodes.forEach(node => node.selected = false)] *)
Definition unselect (nodes : list TreeNode) (heap : Selected) : Selected :=
  fold_left (fun heap node => heap ∖ {[addr node]}) nodes heap.

(** [nodes.forEach(node => node.selected = true)] *)
Definition select (nodes : list TreeNode) (heap : Selected) : Selected :=
  fold_left (fun heap node => {[addr node]} ∪ heap) nodes heap.

(** [left.filter(item => right.indexOf(item) === -1)] *)
Definition difference (left right : list TreeNode) : list TreeNode :=
  List.filter (fun item => bool_decide (indexOf right item = (-1)%Z)) left.

(** The argument of [addSelection] is a selection ([TreeSelection.is]) or a
    bare node; this is the selection made of it. *)
Definition toSelection (selectionOrTreeNode : TreeSelection + TreeNode) : TreeSelection :=
  match selectionOrTreeNode with
  | inl arg =>
      {| node := node arg;
         type := match type arg with Absent => Of DEFAULT | ty => ty end |}
  | inr node => {| node := node; type := Of DEFAULT |}
  end.

Definition fireSelectionChanged (t : TreeImpl) (svc : TreeSelectionServiceImpl)
  : Result TreeSelectionServiceImpl :=
  nodes ← selectedNodes t (state svc);
  Ok {| state := state svc; selectionChanged := selectionChanged svc ++ [nodes] |}.

Definition addSelection (t : TreeImpl) (svc : TreeSelectionServiceImpl) (heap : Selected)
    (selectionOrTreeNode : TreeSelection + TreeNode)
  : Result (TreeSelectionServiceImpl * Selected) :=
  let selection := toSelection selectionOrTreeNode in
  match validateNode t (Some (node selection)) with
  | None => Ok (svc, heap)
  | Some _ =>
      let oldState := state svc in
      newState ← nextState t (state svc) selection;
      oldNodes ← selectedNodes t oldState;
      newNodes ← selectedNodes t newState;
      let toUnselect := difference oldNodes newNodes in
      let toSelect := difference newNodes oldNodes in
      if bool_decide (length toUnselect = 0) && bool_decide (length toSelect = 0)
      then Ok (svc, heap)
      else
        let heap := unselect toUnselect heap in
        let heap := select toSelect heap in
        svc ← fireSelectionChanged t
                {| state := newState; selectionChanged := selectionChanged svc |};
        Ok (svc, heap)
  end.

(** A sequence of calls; a call that throws leaves the service as it was,
    and the caller goes on with the next one. *)
Fixpoint addSelections (t : TreeImpl) (args : list (TreeSelection + TreeNode))
    (w : TreeSelectionServiceImpl * Selected) : TreeSelectionServiceImpl * Selected :=
  match args with
  | [] => w
  | arg :: args' =>
      match addSelection t (fst w) (snd w) arg with
      | Ok w' => addSelections t args' w'
      | Throw _ => addSelections t args' w
      end
  end.

(** * The selection state tests *)

(** [model.getNode(nodeId) as SelectableTreeNode]; the ids the tests ask
    for are all in the index. *)
Definition findNode (nodeId : string) : TreeNode :=
  default MockTreeModel.MOCK_ROOT (getNode mockTree (Some nodeId)).

(** The steps of the tests' [Assert.nextState] chain. *)
Definition default_ (nodeId : string) (s : TreeSelectionState) : Result TreeSelectionState :=
  nextState mockTree s {| node := findNode nodeId; type := Of DEFAULT |}.

Definition toggle (nodeId : string) (s : TreeSelectionState) : Result TreeSelectionState :=
  nextState mockTree s (toggleOf (findNode nodeId)).

Definition range (nodeId : string) (s : TreeSelectionState) : Result TreeSelectionState :=
  nextState mockTree s (rangeOf (findNode nodeId)).

(** [newState().nextState(...).nextState(...)...]: the state after the
    steps of a test, then its selected nodes. *)
Definition newState (steps : list (TreeSelectionState → Result TreeSelectionState))
  : Result (list TreeNode) :=
  foldl (fun state step => state ≫= step) (Ok emptyState) steps
    ≫= selectedNodes mockTree.

(** * Notions the statements use *)

(** A stack without DEFAULT entries. *)
Definition noDefault (stack : list TreeSelection) : Prop :=
  Forall (fun selection => isDefault selection = false) stack.

(** [X] is one of the objects of [l]. *)
Definition occurs (X : TreeNode) (l : list TreeNode) : Prop := addr X ∈ addr <$> l.

(** In the loop of [selectedNodes]: [X] is among the nodes collected so far
    and stays there if the next entry is a RANGE that pops the node of a
    TOGGLE before it. *)
Definition settled (X : TreeNode) (acc : list TreeNode * option TreeSelection) : Prop :=
  occurs X acc.1
  ∧ ∀ e, acc.2 = Some e → type e = Of TOGGLE → occurs X (removelast acc.1).

(** The service's selected nodes are defined, and the objects in [fresh],
    those whose [selected] member was false to begin with, are selected
    exactly when they are among them. *)
Definition consistent (t : TreeImpl) (fresh : nat → Prop)
    (w : TreeSelectionServiceImpl * Selected) : Prop :=
  ∃ l, selectedNodes t (state w.1) = Ok l
       ∧ ∀ a, fresh a → a ∈ w.2 ↔ a ∈ addr <$> l.

(** * The namespaces of [tree.ts] *)

(** [TreeNode.equals]: the same object, or two objects with the same id. *)
Definition TreeNode_equals (left right : option TreeNode) : bool :=
  match left, right with
  | Some l, Some r => same l r || bool_decide (id l = id r)
  | None, None => true
  | _, _ => false
  end.

(** [Array.prototype.findIndex]: the first index whose element satisfies
    [p], or [-1]. *)
Fixpoint findIndex_from {A : Type} (p : A → bool) (l : list A) (i : Z) : Z :=
  match l with
  | [] => (-1)%Z
  | x :: l' => if p x then i else findIndex_from p l' (i + 1)%Z
  end.

Definition findIndex {A : Type} (p : A → bool) (l : list A) : Z := findIndex_from p l 0.

(** [array[i]] for a number [i]: [undefined] outside of the array. *)
Definition element {A : Type} (l : list A) (i : Z) : option A :=
  if bool_decide (i < 0)%Z then None else l !! Z.to_nat i.

(** [parent.children] of a parameter typed [CompositeTreeNode]: the member
    is there by the type, and the functions below are stated for parents
    that have it. *)
Definition childrenOf (parent : TreeNode) : list TreeNode :=
  default [] (children parent).

(** [CompositeTreeNode.indexOf] *)
Definition CompositeTreeNode_indexOf (parent : TreeNode) (node : option TreeNode) : Z :=
  match node with
  | None => (-1)%Z
  | Some _ => findIndex (fun child => TreeNode_equals node (Some child)) (childrenOf parent)
  end.

(** [CompositeTreeNode.getFirstChild] and [CompositeTreeNode.getLastChild] *)
Definition CompositeTreeNode_getFirstChild (parent : TreeNode) : option TreeNode :=
  element (childrenOf parent) 0.

Definition CompositeTreeNode_getLastChild (parent : TreeNode) : option TreeNode :=
  element (childrenOf parent) (Z.of_nat (length (childrenOf parent)) - 1).

(** [node.parent] is a reference to the parent object.  The objects are
    kept in a store by address; [objects !! a] is the object at [a]. *)
Definition parentOf (objects : gmap nat TreeNode) (node : TreeNode) : option TreeNode :=
  a ← parent node; objects !! a.

(** [TreeNode.getPrevSibling] and [TreeNode.getNextSibling] *)
Definition TreeNode_getPrevSibling (objects : gmap nat TreeNode) (node : option TreeNode)
  : option TreeNode :=
  match node with
  | None => None
  | Some n =>
      match parentOf objects n with
      | None => None
      | Some parent =>
          let index := CompositeTreeNode_indexOf parent node in
          element (childrenOf parent) (index - 1)
      end
  end.

Definition TreeNode_getNextSibling (objects : gmap nat TreeNode) (node : option TreeNode)
  : option TreeNode :=
  match node with
  | None => None
  | Some n =>
      match parentOf objects n with
      | None => None
      | Some parent =>
          let index := CompositeTreeNode_indexOf parent node in
          element (childrenOf parent) (index + 1)
      end
  end.

(** The store that holds the objects of a list of nodes. *)
Definition objectsOf (l : list TreeNode) : gmap nat TreeNode :=
  list_to_map ((fun n => (addr n, n)) <$> l).

(** The ids of the nodes below and including a node, and the nodes whose
    ids and addresses are all different. *)
Definition subtree (n : TreeNode) : list TreeNode := DepthFirstTreeIterator false n.

Definition distinct (l : list TreeNode) : Prop :=
  NoDup (id <$> l) ∧ NoDup (addr <$> l).

(** The node an id leads to after [addNode] has gone over the nodes [l] in
    this order: the last one of them with that id. *)
Definition lastWithId (i : string) (l : list TreeNode) : option TreeNode :=
  last (filter (fun m => id m = i) l).

(** The objects of the fixture, and a node object that names [1.2] as its
    parent but is not among the children of [1.2]. *)
Definition mockObjects : gmap nat TreeNode := objectsOf (treeNodes mockTree).

Definition detachedNode : TreeNode :=
  {| addr := 12; id := "1.2.4"; parent := Some 4; selectable := true;
     expanded := None; children := Some [] |}.

(** Indices that go down, starting below [m]: what the loops of
    [handleToggle] and [handleRange] push to [toRemove]. *)
Fixpoint descending (m : nat) (indices : list nat) : Prop :=
  match indices with
  | [] => True
  | i :: rest => i < m ∧ descending i rest
  end.

(** What the listeners of [onSelectionChanged] were told last, or no nodes
    if they were told nothing yet. *)
Definition lastTold (svc : TreeSelectionServiceImpl) : list TreeNode :=
  default [] (last (selectionChanged svc)).

(** * AbstractTreeDecoratorService ([tree-decorator.ts])

    [Data] is [TreeDecoration.Data].  A [Map] whose order of keys shows in
    a result is a list of entries in insertion order; the other maps, and
    the object [deflateDecorators] builds on [Object.create(null)], are
    finite maps. *)

Section Decorators.

Variable Data : Type.




Definition deflateDecorators (decorations : gmap string (list Data))
  : gmap string (list Data) :=
  map_fold (fun id data state => <[id := data]> state) ∅ decorations.

Definition inflateDecorators (state : gmap string (list Data)) : gmap string (list Data) :=
  fold_left
    (fun decorators id =>
       match state !! id with
       | Some data => <[id := data]> decorators
       | None => decorators
       end)
    (map_to_list state).*1 ∅.


End Decorators.

(** * The fixture builder ([test/mock-tree-model.ts]) *)

(** [children.map(child => Node.toTreeNode(child, node))]: the children
    are built from left to right. *)
Fixpoint toTreeNodes (l : list MockTreeModel.Node) (parent : option nat) (next : nat)
  : list TreeNode * nat :=
  match l with
  | [] => ([], next)
  | child :: l' =>
      let '(n, next) := MockTreeModel.toTreeNode child parent next in
      let '(ns, next) := toTreeNodes l' parent next in
      (n :: ns, next)
  end.

(** The ids of a description, a node before its children. *)
Fixpoint idsOf (root : MockTreeModel.Node) : list string :=
  match root with
  | MockTreeModel.node i cs =>
      i :: match cs with
           | Some l => flat_map idsOf l
           | None => []
           end
  end.

(** What [toTreeNode] makes of every node, and of a description built
    with [next] as the next free address. *)
Definition wellFormed (n : TreeNode) : Prop :=
  selectable n = true
  ∧ ExpandableTreeNode.isCollapsed (Some n) = false
  ∧ Forall (fun c : TreeNode => parent c = Some (addr n)) (childrenOf n).

Definition built (root : MockTreeModel.Node) : Prop :=
  ∀ (p : option nat) (next : nat),
    id <$> subtree (MockTreeModel.toTreeNode root p next).1 = idsOf root
    ∧ addr <$> subtree (MockTreeModel.toTreeNode root p next).1
      = seq next (length (idsOf root))
    ∧ (MockTreeModel.toTreeNode root p next).2 = next + length (idsOf root)
    ∧ parent (MockTreeModel.toTreeNode root p next).1 = p
    ∧ Forall wellFormed (subtree (MockTreeModel.toTreeNode root p next).1).

(** * Identity and membership *)

Lemma same_refl (n : TreeNode) : same n n = true.
Proof. apply Nat.eqb_refl. Qed.

Lemma same_addr (n m : TreeNode) : same n m = true ↔ addr n = addr m.
Proof. apply Nat.eqb_eq. Qed.

Lemma indexOf_from_found (x : TreeNode) (l : list TreeNode) (i : Z) :
  (0 ≤ i)%Z → indexOf_from x l i ≠ (-1)%Z ↔ addr x ∈ addr <$> l.
Proof.
  revert i. induction l as [|y l IH]; intros i Hi; simpl.
  - split; [done | intros H; inversion H].
  - destruct (same y x) eqn:E.
    + split; [|lia]. intros _. apply same_addr in E. rewrite E. left.
    + rewrite IH by lia. rewrite elem_of_cons.
      split; [by right | intros [H|H]; [|done]].
      symmetry in H. apply same_addr in H. congruence.
Qed.

Lemma indexOf_found (l : list TreeNode) (x : TreeNode) :
  indexOf l x ≠ (-1)%Z ↔ occurs x l.
Proof. by apply indexOf_from_found. Qed.

Lemma indexOf_missing (l : list TreeNode) (x : TreeNode) :
  indexOf l x = (-1)%Z ↔ ¬ occurs x l.
Proof.
  rewrite <- indexOf_found. destruct (decide (indexOf l x = (-1)%Z)); naive_solver.
Qed.

Lemma existsb_same (x : TreeNode) (l : list TreeNode) :
  existsb (same x) l = true ↔ occurs x l.
Proof.
  unfold occurs. induction l as [|y l IH]; simpl.
  - split; [done | intros H; inversion H].
  - rewrite orb_true_iff, IH, elem_of_cons, same_addr. done.
Qed.

Lemma setKeys_acc (l keys : list TreeNode) (a : nat) :
  a ∈ addr <$> fold_left
        (fun keys n => if existsb (same n) keys then keys else keys ++ [n]) l keys
  ↔ a ∈ addr <$> keys ∨ a ∈ addr <$> l.
Proof.
  revert keys. induction l as [|x l IH]; intros keys; simpl.
  - split; [by left | intros [H|H]; [done | inversion H]].
  - rewrite IH. destruct (existsb (same x) keys) eqn:E.
    + apply existsb_same in E. rewrite elem_of_cons.
      split; [intros [H|H]; auto | intros [H|[->|H]]; auto].
    + rewrite fmap_app, elem_of_app. simpl.
      rewrite list_elem_of_singleton, elem_of_cons. tauto.
Qed.

Lemma setKeys_elem (l : list TreeNode) (a : nat) :
  a ∈ addr <$> setKeys l ↔ a ∈ addr <$> l.
Proof.
  unfold setKeys. rewrite setKeys_acc. simpl.
  split; [intros [H|H]; [inversion H | done] | by right].
Qed.

(** * The tree registry *)

(** C10. The node lookups are total on absent input: [getNode(undefined)]
    and [validateNode(undefined)] both return [undefined].  Neither can
    throw or change the tree: they are functions of the tree's state that
    return a node and nothing else. *)
Theorem lookup_of_undefined (t : TreeImpl) :
  getNode t None = None ∧ validateNode t None = None.
Proof. split; reflexivity. Qed.

Lemma assign_children_self (p : TreeNode) (cs : list TreeNode) :
  children p = Some cs → assign_children (addr p) cs p = p.
Proof.
  destruct p as [a i pa s e ch]; simpl. intros ->. by rewrite Nat.eqb_refl.
Qed.

Lemma setChildren_fired (p : TreeNode) (cs : list TreeNode) (u : TreeImpl) :
  fired (setChildren p cs u)
  = fired u ++ [NodeRefreshed (assign_children (addr p) cs p); Changed].
Proof. unfold setChildren; simpl. by rewrite <- app_assoc. Qed.

(** What one call of [refresh] fires before it returns: [onChanged], and
    nothing else, whatever the parent is. *)
Lemma refresh_fired (raw : option TreeNode) (t : TreeImpl) :
  fired (refresh raw t) = fired t ++ [Changed].
Proof.
  unfold refresh. destruct (refreshParent raw t) as [p|]; [|done].
  by destruct (CompositeTreeNode.is_ (Some p)).
Qed.

Lemma refresh_microtasks (raw : option TreeNode) (t : TreeImpl) (parent : TreeNode) :
  refreshParent raw t = Some parent →
  CompositeTreeNode.is_ (Some parent) = true →
  microtasks (refresh raw t) = microtasks t ++ [mkJob parent (resolveChildren parent)].
Proof. intros Hp Hc. unfold refresh. by rewrite Hp, Hc. Qed.

Lemma runJob_fired (parent : TreeNode) (u : TreeImpl) :
  CompositeTreeNode.is_ (Some parent) = true →
  fired (runJob (mkJob parent (resolveChildren parent)) u)
  = fired u ++ [NodeRefreshed parent; Changed].
Proof.
  intros Hc. unfold runJob. cbn [job_parent job_children].
  rewrite setChildren_fired. simpl in Hc.
  apply bool_decide_eq_true in Hc as [cs Hcs].
  unfold resolveChildren. rewrite Hcs; simpl.
  by rewrite (assign_children_self _ _ Hcs).
Qed.

(** C9. When the parent of a refresh resolves to a valid composite node, the
    refresh schedules the resolution of its children, and whenever that
    resolution runs it fires [onNodeRefreshed(parent)] first and the
    [onChanged] that goes with it second, and nothing else. *)
Theorem refresh_fires_node_refreshed_before_changed
    (raw : option TreeNode) (t : TreeImpl) (parent : TreeNode) :
  refreshParent raw t = Some parent →
  CompositeTreeNode.is_ (Some parent) = true →
  ∃ job,
    microtasks (refresh raw t) = microtasks t ++ [job]
    ∧ job_parent job = parent
    ∧ ∀ u, fired (runJob job u) = fired u ++ [NodeRefreshed parent; Changed].
Proof.
  intros Hp Hc. exists (mkJob parent (resolveChildren parent)).
  split; [by apply refresh_microtasks|]. split; [done|].
  intros u. by apply runJob_fired.
Qed.

Lemma refresh_fires_node_refreshed_before_changed_witness :
  refreshParent None mockTree = Some MockTreeModel.MOCK_ROOT
  ∧ CompositeTreeNode.is_ (Some MockTreeModel.MOCK_ROOT) = true
  ∧ ∃ job,
      microtasks (refresh None mockTree) = microtasks mockTree ++ [job]
      ∧ job_parent job = MockTreeModel.MOCK_ROOT
      ∧ ∀ u, fired (runJob job u)
             = fired u ++ [NodeRefreshed MockTreeModel.MOCK_ROOT; Changed].
Proof.
  split; [vm_compute; reflexivity|]. split; [vm_compute; reflexivity|].
  apply (refresh_fires_node_refreshed_before_changed None mockTree);
    vm_compute; reflexivity.
Defined.

(** Everything one refresh fires when nothing else is waiting: the
    [onChanged] of [refresh] itself, then the pair of the resolution. *)
Lemma refresh_and_resolution_fired
    (raw : option TreeNode) (t : TreeImpl) (parent : TreeNode) :
  microtasks t = [] →
  refreshParent raw t = Some parent →
  CompositeTreeNode.is_ (Some parent) = true →
  fired (runMicrotask (refresh raw t))
  = fired t ++ [Changed; NodeRefreshed parent; Changed].
Proof.
  intros Hq Hp Hc. unfold runMicrotask.
  rewrite (refresh_microtasks _ _ _ Hp Hc), Hq. cbn [app].
  rewrite (runJob_fired _ _ Hc). cbn [fired].
  rewrite refresh_fired, <- app_assoc. done.
Qed.

(** * The selection state machine *)

(** ** Stacks without DEFAULT entries *)

Lemma existsb_isDefault_false (stack : list TreeSelection) :
  existsb isDefault stack = false ↔ noDefault stack.
Proof.
  unfold noDefault. induction stack as [|e stack IH]; simpl.
  - split; [constructor | done].
  - rewrite orb_false_iff, IH, Forall_cons. done.
Qed.

Lemma checkNoDefaultSelection_ok (stack : list TreeSelection) :
  noDefault stack → checkNoDefaultSelection stack = Ok stack.
Proof.
  intros H. apply existsb_isDefault_false in H.
  unfold checkNoDefaultSelection. by rewrite H.
Qed.

Lemma checkNoDefaultSelection_inv (stack copy : list TreeSelection) :
  checkNoDefaultSelection stack = Ok copy → copy = stack ∧ noDefault stack.
Proof.
  unfold checkNoDefaultSelection. destruct (existsb isDefault stack) eqn:E; [done|].
  intros [= <-]. split; [done | by apply existsb_isDefault_false].
Qed.

Lemma checkNoDefaultSelection_throw (pre post : list TreeSelection) (e : TreeSelection) :
  isDefault e = true →
  checkNoDefaultSelection (pre ++ e :: post) = Throw UnexpectedDefaultSelection.
Proof.
  intros H. unfold checkNoDefaultSelection.
  rewrite existsb_app; simpl. rewrite H. by rewrite orb_true_r.
Qed.

Lemma noDefault_typed (stack : list TreeSelection) :
  noDefault stack ↔
  Forall (fun selection => type selection = Of TOGGLE ∨ type selection = Of RANGE) stack.
Proof.
  unfold noDefault. apply Forall_proper; [|done].
  intros [n [| |[]]]; unfold isDefault; simpl;
    (split; [try done; auto | intros [?|?]; done]).
Qed.

Lemma noDefault_removelast (stack : list TreeSelection) :
  noDefault stack → noDefault (removelast stack).
Proof.
  unfold noDefault. induction stack as [|e [|e' stack] IH]; simpl; intros H.
  - constructor.
  - constructor.
  - apply Forall_cons in H as [He H]. apply Forall_cons. split; [done | by apply IH].
Qed.

Lemma noDefault_spliceAll (toRemove : list nat) (stack : list TreeSelection) :
  noDefault stack → noDefault (spliceAll toRemove stack).
Proof.
  unfold spliceAll. revert stack.
  induction toRemove as [|i toRemove IH]; intros stack H; simpl; [done|].
  apply IH. unfold noDefault. by apply Forall_delete.
Qed.

Lemma noDefault_toggles (l : list TreeNode) : noDefault (toggleOf <$> l).
Proof. unfold noDefault. apply Forall_fmap, Forall_forall. done. Qed.

Lemma noDefault_tail (stack : list TreeSelection) :
  noDefault stack → noDefault (tail stack).
Proof. destruct stack; simpl; [done|]. intros H. by apply Forall_cons in H as [_ H]. Qed.

Lemma splitRange_noDefault (t : TreeImpl) (copy copy' : list TreeSelection)
    (X : TreeNode) (n : nat) :
  noDefault copy → splitRange t copy X n = Some copy' → noDefault copy'.
Proof.
  intros Hc. induction n as [|i IH]; simpl; [done|].
  destruct (copy !! i) as [[nd [| |[| |]]]|]; try exact IH.
  case_bool_decide; [|exact IH].
  intros [= <-]. unfold noDefault in *.
  apply Forall_app; split; [by apply Forall_take|].
  apply Forall_app; split; [|by apply Forall_drop].
  apply noDefault_tail, noDefault_toggles.
Qed.

Lemma rangeMatches_noDefault (t : TreeImpl) (copy : list TreeSelection)
    (lastSelection : option TreeNode) (range : TreeSelection) (n : nat) :
  noDefault copy → noDefault (rangeMatches t copy lastSelection range n).1.
Proof.
  intros Hc. induction n as [|i IH]; simpl; [done|].
  destruct (copy !! i) as [[nd [| |[| |]]]|]; simpl; try done.
  all: try (destruct (rangeMatches t copy lastSelection range i) as [c r];
            case_bool_decide; exact IH).
  case_bool_decide; simpl; [by apply noDefault_removelast | done].
Qed.

Lemma handleToggle_noDefault (t : TreeImpl) (s s' : TreeSelectionState) (X : TreeNode) :
  handleToggle t s X = Ok s' → noDefault (selectionStack s').
Proof.
  unfold handleToggle.
  destruct (checkNoDefaultSelection (selectionStack s)) as [copy|] eqn:E; simpl; [|done].
  apply checkNoDefaultSelection_inv in E as [-> Hc].
  match goal with |- (if ?b then _ else _) = _ → _ => destruct b end.
  { by intros [= <-]. }
  destruct (splitRange t (selectionStack s) X (length (selectionStack s))) as [c|] eqn:Es.
  { intros [= <-]. simpl. by eapply splitRange_noDefault. }
  case_bool_decide; intros [= <-]; simpl.
  - by apply noDefault_spliceAll.
  - apply Forall_app. split; [by apply noDefault_spliceAll|].
    by repeat constructor.
Qed.

Lemma handleRange_noDefault (t : TreeImpl) (s s' : TreeSelectionState) (X : TreeNode) :
  handleRange t s X = Ok s' → noDefault (selectionStack s').
Proof.
  unfold handleRange.
  destruct (checkNoDefaultSelection (selectionStack s)) as [copy|] eqn:E; simpl; [|done].
  apply checkNoDefaultSelection_inv in E as [-> Hc].
  pose proof (rangeMatches_noDefault t (selectionStack s)
    (node <$> last (selectionStack s)) (rangeOf X)
    (length (selectionStack s)) Hc) as H.
  destruct (rangeMatches _ _ _ _ _) as [c r]. intros [= <-]. simpl in *.
  apply Forall_app. split; [by apply noDefault_spliceAll | by repeat constructor].
Qed.

Lemma nextState_noDefault (t : TreeImpl) (s s' : TreeSelectionState)
    (selection : TreeSelection) :
  nextState t s selection = Ok s' → noDefault (selectionStack s').
Proof.
  unfold nextState. destruct (type selection) as [| |[| |]]; try done.
  - intros [= <-]. by repeat constructor.
  - intros [= <-]. by repeat constructor.
  - apply handleToggle_noDefault.
  - apply handleRange_noDefault.
Qed.

Lemma handleToggle_total (t : TreeImpl) (s : TreeSelectionState) (X : TreeNode) :
  noDefault (selectionStack s) → ∃ s', handleToggle t s X = Ok s'.
Proof.
  intros H. unfold handleToggle. rewrite (checkNoDefaultSelection_ok _ H); simpl.
  match goal with |- ∃ _, (if ?b then _ else _) = _ => destruct b end; [eauto|].
  destruct (splitRange _ _ _ _); [eauto|]. case_bool_decide; eauto.
Qed.

Lemma handleRange_total (t : TreeImpl) (s : TreeSelectionState) (X : TreeNode) :
  noDefault (selectionStack s) → ∃ s', handleRange t s X = Ok s'.
Proof.
  intros H. unfold handleRange. rewrite (checkNoDefaultSelection_ok _ H); simpl.
  destruct (rangeMatches _ _ _ _ _). eauto.
Qed.

Lemma selectedNodes_total (t : TreeImpl) (s : TreeSelectionState) :
  noDefault (selectionStack s) → ∃ l, selectedNodes t s = Ok l.
Proof.
  intros H. unfold selectedNodes. rewrite (checkNoDefaultSelection_ok _ H); simpl.
  destruct (fold_left _ _ _). eauto.
Qed.

Lemma reachable_noDefault (s : TreeSelectionState) :
  reachable s → noDefault (selectionStack s).
Proof.
  induction 1 as [|t s selection s' _ _ H]; [constructor|].
  by eapply nextState_noDefault.
Qed.

(** C8. A reachable state has only TOGGLE and RANGE entries on its stack;
    on it [selectedNodes] returns and [nextState] never throws the error
    of a surviving DEFAULT entry.  A stack that does hold a DEFAULT entry
    makes [selectedNodes] throw that error, and a TOGGLE or a RANGE
    selection as well. *)
Theorem reachable_states_have_no_default (s : TreeSelectionState) :
  reachable s →
  Forall (fun selection => type selection = Of TOGGLE ∨ type selection = Of RANGE)
    (selectionStack s)
  ∧ (∀ t, ∃ l, selectedNodes t s = Ok l)
  ∧ (∀ t selection, nextState t s selection ≠ Throw UnexpectedDefaultSelection)
  ∧ (∀ t pre n post X,
       let stale := mkState (pre ++ {| node := n; type := Of DEFAULT |} :: post) in
       selectedNodes t stale = Throw UnexpectedDefaultSelection
       ∧ nextState t stale (toggleOf X) = Throw UnexpectedDefaultSelection
       ∧ nextState t stale (rangeOf X) = Throw UnexpectedDefaultSelection).
Proof.
  intros Hr. apply reachable_noDefault in Hr.
  split; [by apply noDefault_typed|]. split; [|split].
  - intros t. by apply selectedNodes_total.
  - intros t selection. unfold nextState.
    destruct (type selection) as [| |[| |]]; try done.
    + destruct (handleToggle_total t s (node selection) Hr) as [s' ->]. done.
    + destruct (handleRange_total t s (node selection) Hr) as [s' ->]. done.
  - intros t pre n post X; simpl.
    unfold selectedNodes, nextState, handleToggle, handleRange; simpl.
    by rewrite checkNoDefaultSelection_throw.
Qed.

Lemma reachable_states_have_no_default_witness :
  reachable (mkState [toggleOf (findNode "1.1")])
  ∧ Forall (fun selection => type selection = Of TOGGLE ∨ type selection = Of RANGE)
      [toggleOf (findNode "1.1")]
  ∧ (∀ t, ∃ l, selectedNodes t (mkState [toggleOf (findNode "1.1")]) = Ok l)
  ∧ (∀ t selection,
       nextState t (mkState [toggleOf (findNode "1.1")]) selection
       ≠ Throw UnexpectedDefaultSelection)
  ∧ (∀ t pre n post X,
       let stale := mkState (pre ++ {| node := n; type := Of DEFAULT |} :: post) in
       selectedNodes t stale = Throw UnexpectedDefaultSelection
       ∧ nextState t stale (toggleOf X) = Throw UnexpectedDefaultSelection
       ∧ nextState t stale (rangeOf X) = Throw UnexpectedDefaultSelection).
Proof.
  assert (reachable (mkState [toggleOf (findNode "1.1")])) as H.
  { apply (reachable_next mockTree emptyState (toggleOf (findNode "1.1"))).
    - apply reachable_empty.
    - vm_compute; reflexivity. }
  split; [exact H|].
  apply (reachable_states_have_no_default (mkState [toggleOf (findNode "1.1")]) H).
Defined.

(** ** The sole selected node, DEFAULT, and the first two tests *)

Lemma nextState_toggle_sole (t : TreeImpl) (n X : TreeNode) :
  same n X = true →
  nextState t (mkState [toggleOf n]) (toggleOf X) = Ok (mkState [toggleOf n]).
Proof. intros H. unfold nextState, handleToggle; simpl. by rewrite H. Qed.

(** C2. On a stack that is exactly one TOGGLE entry for a node, toggling
    that node again is a no-op: [nextState] returns the very state it was
    called on, and the node is still the one selected node. *)
Theorem toggle_sole_selected_is_noop (t : TreeImpl) (n X : TreeNode) :
  same n X = true →
  nextState t (mkState [toggleOf n]) (toggleOf X) = Ok (mkState [toggleOf n])
  ∧ selectedNodes t (mkState [toggleOf n]) = Ok [n].
Proof.
  intros H. split; [by apply nextState_toggle_sole | reflexivity].
Qed.

Lemma toggle_sole_selected_is_noop_witness :
  same (findNode "1") (findNode "1") = true
  ∧ nextState mockTree (mkState [toggleOf (findNode "1")]) (toggleOf (findNode "1"))
    = Ok (mkState [toggleOf (findNode "1")])
  ∧ selectedNodes mockTree (mkState [toggleOf (findNode "1")]) = Ok [findNode "1"].
Proof.
  split; [vm_compute; reflexivity|].
  apply (toggle_sole_selected_is_noop mockTree (findNode "1") (findNode "1")).
  vm_compute; reflexivity.
Defined.

(** C5. A DEFAULT selection of a node, given with the type DEFAULT or with
    no type at all, replaces whatever stack the state has by the single
    entry TOGGLE(node), whose selected nodes are exactly that node; so
    [toggle(1); toggle(1.1); default(1.2)] selects exactly [1.2]. *)
Theorem default_resets_history :
  (∀ t state N,
      nextState t state {| node := N; type := Of DEFAULT |} = Ok (mkState [toggleOf N])
      ∧ nextState t state {| node := N; type := Absent |} = Ok (mkState [toggleOf N])
      ∧ selectedNodes t (mkState [toggleOf N]) = Ok [N])
  ∧ newState [toggle "1"; toggle "1.1"; default_ "1.2"] = Ok [findNode "1.2"].
Proof. split; [intros; repeat split | vm_compute; reflexivity]. Qed.

(** C3. Test 01 of the selection states: on the fixture, with every
    composite node expanded, [toggle(1.1); toggle(1.1.2); toggle(1.2.1.1);
    toggle(1.2); range(1.3)] selects the nine nodes from [1.3] back to
    [1.1], most recent first; the TOGGLE of [1.2] gives way to the range
    from [1.2] to [1.3]. *)
Theorem range_supersedes_provisional_toggle :
  newState [toggle "1.1"; toggle "1.1.2"; toggle "1.2.1.1"; toggle "1.2"; range "1.3"]
  = Ok (findNode <$>
          ["1.3"; "1.2.3"; "1.2.2"; "1.2.1.2"; "1.2.1.1"; "1.2.1"; "1.2"; "1.1.2"; "1.1"]).
Proof. vm_compute; reflexivity. Qed.

(** ** A range over a range *)

Lemma rangeMatches_top_range (t : TreeImpl) (stack : list TreeSelection)
    (lastSelection : option TreeNode) (a : TreeNode) (range : TreeSelection) :
  rangeMatches t (stack ++ [rangeOf a]) lastSelection range (length (stack ++ [rangeOf a]))
  = (stack, []).
Proof.
  rewrite length_app; simpl. rewrite Nat.add_1_r; simpl.
  rewrite lookup_app_r, Nat.sub_diag by done; simpl.
  rewrite length_app; simpl. rewrite bool_decide_eq_true_2 by lia.
  by rewrite removelast_last.
Qed.

(** C4. A RANGE on top of a RANGE replaces it: when the top entry of the
    stack is a RANGE, [nextState] with a RANGE selection pops that entry and
    pushes the new one, leaving the entries below as they are (and throws if
    one of those is a DEFAULT entry).  This is test 02: [toggle(1.1);
    toggle(1.2.1.1); range(1.2.3); range(1.2.1.2)] selects [1.2.1.2],
    [1.2.1.1] and [1.1]. *)
Theorem second_range_replaces_first :
  newState [toggle "1.1"; toggle "1.2.1.1"; range "1.2.3"; range "1.2.1.2"]
    = Ok (findNode <$> ["1.2.1.2"; "1.2.1.1"; "1.1"])
  ∧ ∀ t stack a n,
      nextState t (mkState (stack ++ [rangeOf a])) (rangeOf n)
      = if existsb isDefault stack then Throw UnexpectedDefaultSelection
        else Ok (mkState (stack ++ [rangeOf n])).
Proof.
  split; [vm_compute; reflexivity|].
  intros t stack a n. unfold nextState, handleRange; simpl.
  unfold checkNoDefaultSelection. rewrite existsb_app; simpl.
  rewrite orb_false_r. destruct (existsb isDefault stack); simpl; [done|].
  by rewrite rangeMatches_top_range.
Qed.

(** ** The other tests *)

(** Tests 03 to 09 and 12 of the selection states, each with the nodes it
    expects after its last step. *)
Lemma selection_state_tests :
  newState [toggle "1.1"; toggle "1.2.1.1"; range "1.2.3"; range "1.2.1"]
    = Ok (findNode <$> ["1.2.1"; "1.2.1.1"; "1.1"])
  ∧ newState [toggle "1.1"; toggle "1.2.1.1"; toggle "1.1"]
    = Ok (findNode <$> ["1.2.1.1"])
  ∧ newState [toggle "1.1"; toggle "1.1.2"; toggle "1.2.1.2"; range "1.2.3";
              toggle "1.2.2"]
    = Ok (findNode <$> ["1.2.3"; "1.2.1.2"; "1.1.2"; "1.1"])
  ∧ newState [toggle "1.2.2"; range "1.2.1"; range "1.2.3"; range "1.1";
              toggle "1.1.2"; toggle "1.2"; toggle "1.2.1"; toggle "1.2.1.1";
              range "1.2"]
    = Ok (findNode <$> ["1.2"; "1.1.2"; "1.1.1"; "1.1"; "1.2.1.2"; "1.2.2"])
  ∧ newState [toggle "1.2.2"; range "1.1.1"; toggle "1.1.2"; range "1.2.3"]
    = Ok (findNode <$>
            ["1.2.3"; "1.2.2"; "1.2.1.2"; "1.2.1.1"; "1.2.1"; "1.2"; "1.1.2"; "1.1.1"])
  ∧ newState [toggle "1.2.2"; toggle "1.2.1.1"; range "1.1.1"; range "1.2.3"]
    = Ok (findNode <$> ["1.2.3"; "1.2.2"; "1.2.1.2"; "1.2.1.1"])
  ∧ newState [toggle "1.2.3"; range "1.1.1"; toggle "1.2.1.1"; toggle "1.2.1.2";
              toggle "1.2.1"; toggle "1.2"; range "1.1"]
    = Ok (findNode <$> ["1.1"; "1.1.1"; "1.1.2"; "1.2.2"; "1.2.3"])
  ∧ newState [toggle "1.1"; range "1"; range "1.1"; range "1.1.1"; range "1.1";
              range "1"]
    = Ok (findNode <$> ["1"; "1.1"]).
Proof. repeat split; vm_compute; reflexivity. Qed.

Lemma findNode_id :
  Forall (fun nodeId => getNode mockTree (Some nodeId) = Some (findNode nodeId)
                        ∧ id (findNode nodeId) = nodeId)
    ["1"; "1.1"; "1.1.1"; "1.1.2"; "1.2"; "1.2.1"; "1.2.1.1"; "1.2.1.2"; "1.2.2";
     "1.2.3"; "1.3"].
Proof. repeat constructor; vm_compute; reflexivity. Qed.

(** ** Toggling twice *)

Lemma replay_last (t : TreeImpl) (l : list TreeSelection)
    (acc : list TreeNode * option TreeSelection) :
  (fold_left (selectedNodes_step t) l acc).2
  = match last l with Some e => Some e | None => acc.2 end.
Proof.
  revert acc. induction l as [|e l IH]; intros [nodes la]; simpl; [done|].
  rewrite IH, last_cons. by destruct (last l).
Qed.

Lemma nodeBefore_take (copy : list TreeSelection) (i : nat) (e : TreeSelection) :
  copy !! i = Some e → node <$> last (take i copy) = nodeBefore copy i.
Proof.
  destruct i as [|j]; simpl; intros H; [done|].
  destruct (lookup_lt_is_Some_2 copy j) as [e' He'].
  { apply lookup_lt_Some in H. lia. }
  by rewrite (take_S_r _ _ _ He'), last_snoc, He'.
Qed.

Section Replay.

Variable t : TreeImpl.
Variable X : TreeNode.

Lemma selectedNodes_step_settled acc e :
  settled X acc → settled X (selectedNodes_step t acc e).
Proof.
  destruct acc as [nodes la], e as [n ty]. intros [H1 H2].
  unfold settled, selectedNodes_step, occurs in *; simpl in *.
  destruct ty as [| |[| |]]; simpl;
    (split; [|intros e' [= <-]; simpl; try done]); try done.
  - rewrite fmap_app, elem_of_app. by left.
  - intros _. by rewrite removelast_last.
  - rewrite fmap_app, elem_of_app. left.
    destruct la as [[n' [| |[| |]]]|]; try done.
    by apply (H2 _ eq_refl).
Qed.

Lemma replay_settled l acc :
  settled X acc → settled X (fold_left (selectedNodes_step t) l acc).
Proof.
  revert acc. induction l as [|e l IH]; intros acc H; simpl; [done|].
  by apply IH, selectedNodes_step_settled.
Qed.

Lemma replay_toggles l acc :
  Forall (fun e => type e ≠ Of RANGE) l →
  occurs X acc.1 → occurs X (fold_left (selectedNodes_step t) l acc).1.
Proof.
  revert acc. induction l as [|e l IH]; intros [nodes la] Hl H; simpl; [done|].
  apply Forall_cons in Hl as [He Hl]. apply IH; [done|].
  destruct e as [n ty]. unfold selectedNodes_step, occurs in *; simpl in *.
  destruct ty as [| |[| |]]; simpl; try done.
  rewrite fmap_app, elem_of_app. by left.
Qed.

(** A RANGE entry whose range holds [X] selects [X]. *)
Lemma range_entry_selected pre e post :
  type e = Of RANGE →
  occurs X (selectionRange t (node <$> last pre) (node e)) →
  occurs X (fold_left (selectedNodes_step t) (pre ++ e :: post) ([], None)).1.
Proof.
  intros Hty HX. rewrite fold_left_app; simpl. apply replay_settled.
  pose proof (replay_last t pre ([], None)) as Hla.
  destruct (fold_left (selectedNodes_step t) pre ([], None)) as [nodes la].
  simpl in Hla. assert (la = last pre) as -> by (rewrite Hla; by destruct (last pre)).
  destruct e as [n ty]; simpl in *; subst ty.
  unfold settled, selectedNodes_step, occurs in *; simpl.
  split; [|by intros e' [= <-]].
  rewrite fmap_app, elem_of_app. by right.
Qed.

(** A TOGGLE entry for [X] with no RANGE above it selects [X]. *)
Lemma toggle_entry_selected pre e post :
  type e = Of TOGGLE → same (node e) X = true →
  Forall (fun e => type e ≠ Of RANGE) post →
  occurs X (fold_left (selectedNodes_step t) (pre ++ e :: post) ([], None)).1.
Proof.
  intros Hty HX Hpost. rewrite fold_left_app; simpl. apply replay_toggles; [done|].
  destruct (fold_left (selectedNodes_step t) pre ([], None)) as [nodes la].
  destruct e as [n ty]; simpl in *; subst ty.
  unfold selectedNodes_step, occurs; simpl.
  rewrite fmap_app, elem_of_app. right. apply same_addr in HX.
  simpl. by apply list_elem_of_singleton.
Qed.

Lemma selectedNodes_inv stack l :
  selectedNodes t (mkState stack) = Ok l →
  noDefault stack
  ∧ (occurs X l ↔ occurs X (fold_left (selectedNodes_step t) stack ([], None)).1).
Proof.
  unfold selectedNodes; simpl.
  destruct (checkNoDefaultSelection stack) as [copy|] eqn:E; simpl; [|done].
  apply checkNoDefaultSelection_inv in E as [-> Hc].
  destruct (fold_left (selectedNodes_step t) stack ([], None)) as [nodes la].
  intros [= <-]. split; [done|]. unfold occurs; simpl.
  by rewrite setKeys_elem, fmap_reverse, elem_of_reverse.
Qed.

Variable copy : list TreeSelection.
Hypothesis copy_noDefault : noDefault copy.
Hypothesis unselected :
  ¬ occurs X (fold_left (selectedNodes_step t) copy ([], None)).1.

(** With [X] not selected, the first loop of [handleToggle] finds no range
    to split and the second no entry to merge with. *)
Lemma splitRange_unselected n : splitRange t copy X n = None.
Proof using unselected.
  induction n as [|i IH]; simpl; [done|].
  destruct (copy !! i) as [[nd ty]|] eqn:E; [|done].
  destruct ty as [| |[| |]]; try done.
  case_bool_decide as Hidx; [|done]. exfalso. apply unselected.
  rewrite <- (take_drop_middle copy i _ E). apply range_entry_selected; [done|].
  rewrite (nodeBefore_take _ _ _ E). by apply indexOf_found.
Qed.

Lemma toggleMatches_unselected n :
  n ≤ length copy → Forall (fun e => type e ≠ Of RANGE) (drop n copy) →
  toggleMatches copy X n = [].
Proof using copy_noDefault unselected.
  induction n as [|i IH]; simpl; intros Hn Hdrop; [done|].
  destruct (lookup_lt_is_Some_2 copy i) as [[nd ty] E]; [lia|]. rewrite E.
  assert (isDefault {| node := nd; type := ty |} = false) as Hd.
  { unfold noDefault in copy_noDefault.
    by apply (proj1 (Forall_lookup _ _) copy_noDefault i). }
  destruct ty as [| |[| |]]; try done.
  destruct (same nd X) eqn:Es.
  - exfalso. apply unselected.
    rewrite <- (take_drop_middle copy i _ E). by apply toggle_entry_selected.
  - apply IH; [lia|]. rewrite (drop_S _ _ _ E). by apply Forall_cons.
Qed.

(** Entries pushed on top do not change what the loops see below. *)
Lemma splitRange_below ext n :
  n ≤ length copy →
  splitRange t copy X n = None → splitRange t (copy ++ ext) X n = None.
Proof.
  induction n as [|i IH]; simpl; intros Hn; [done|].
  rewrite lookup_app_l by lia.
  assert (nodeBefore (copy ++ ext) i = nodeBefore copy i) as ->.
  { destruct i as [|j]; simpl; [done|]. by rewrite lookup_app_l by lia. }
  destruct (copy !! i) as [[nd [| |[| |]]]|]; try (apply IH; lia).
  case_bool_decide; [done | apply IH; lia].
Qed.

Lemma toggleMatches_below ext n :
  n ≤ length copy → toggleMatches (copy ++ ext) X n = toggleMatches copy X n.
Proof.
  induction n as [|i IH]; simpl; intros Hn; [done|].
  rewrite lookup_app_l by lia. rewrite IH by lia. done.
Qed.

Lemma handleToggle_unselected :
  handleToggle t (mkState copy) X = Ok (mkState (copy ++ [toggleOf X])).
Proof using copy_noDefault unselected.
  unfold handleToggle; simpl. rewrite (checkNoDefaultSelection_ok _ copy_noDefault); simpl.
  rewrite splitRange_unselected.
  rewrite toggleMatches_unselected by (rewrite ?drop_all; done).
  simpl. destruct copy as [|[n ty] [|e2 rest]] eqn:Ec; try done.
  destruct ty as [| |[| |]]; try done.
  destruct (same n X) eqn:Es; [|done].
  exfalso. apply unselected. unfold occurs; simpl.
  apply same_addr in Es. by apply list_elem_of_singleton.
Qed.

Lemma handleToggle_again :
  copy ≠ [] →
  handleToggle t (mkState (copy ++ [toggleOf X])) X = Ok (mkState copy).
Proof using copy_noDefault unselected.
  intros Hne. unfold handleToggle; simpl.
  rewrite checkNoDefaultSelection_ok; simpl.
  2: { apply Forall_app. split; [done | by repeat constructor]. }
  assert ((match copy ++ [toggleOf X] with
           | [{| node := node; type := type |}] =>
               match type with Of TOGGLE => same node X | _ => false end
           | _ => false
           end) = false) as ->.
  { destruct copy as [|e1 [|e2 rest]]; simpl; try done; by destruct e1. }
  rewrite length_app; simpl. rewrite Nat.add_1_r; simpl.
  rewrite list_lookup_middle by done; simpl.
  rewrite splitRange_below by (done || apply splitRange_unselected).
  rewrite same_refl, toggleMatches_below by done.
  rewrite toggleMatches_unselected by (rewrite ?drop_all; done).
  unfold spliceAll; simpl. by rewrite delete_middle, app_nil_r.
Qed.

End Replay.

(** C1, as the code has it.  In a state where [X] is not selected, two
    TOGGLE selections of [X] in a row cancel out when the stack is not
    empty: the first pushes a TOGGLE entry for [X], the second removes it
    again, the stack is back to what it was and [X] is not among the
    selected nodes.  On the empty stack the second toggle finds [X] to be
    the sole selected node and leaves it selected. *)
Theorem toggle_twice_cancels_unless_sole (t : TreeImpl) (s : TreeSelectionState)
    (X : TreeNode) (l : list TreeNode) :
  selectedNodes t s = Ok l →
  indexOf l X = (-1)%Z →
  match selectionStack s with
  | [] =>
      nextState t s (toggleOf X) = Ok (mkState [toggleOf X])
      ∧ nextState t (mkState [toggleOf X]) (toggleOf X) = Ok (mkState [toggleOf X])
      ∧ selectedNodes t (mkState [toggleOf X]) = Ok [X]
  | _ :: _ =>
      nextState t s (toggleOf X) = Ok (mkState (selectionStack s ++ [toggleOf X]))
      ∧ nextState t (mkState (selectionStack s ++ [toggleOf X])) (toggleOf X) = Ok s
      ∧ selectedNodes t s = Ok l
  end.
Proof.
  destruct s as [stack]. intros Hl HX; simpl.
  destruct stack as [|e stack].
  { split; [reflexivity|]. split; [|reflexivity].
    apply nextState_toggle_sole, same_refl. }
  apply indexOf_missing in HX.
  destruct (selectedNodes_inv t X _ _ Hl) as [Hc Hocc].
  assert (¬ occurs X (fold_left (selectedNodes_step t) (e :: stack) ([], None)).1)
    as Hun by (by rewrite <- Hocc).
  unfold nextState; simpl type; cbn iota; simpl node.
  split; [by apply handleToggle_unselected|].
  split; [by apply handleToggle_again | done].
Qed.

Lemma toggle_twice_cancels_unless_sole_witness :
  selectedNodes mockTree (mkState [toggleOf (findNode "1.1")]) = Ok [findNode "1.1"]
  ∧ indexOf [findNode "1.1"] (findNode "1.2") = (-1)%Z
  ∧ nextState mockTree (mkState [toggleOf (findNode "1.1")]) (toggleOf (findNode "1.2"))
    = Ok (mkState ([toggleOf (findNode "1.1")] ++ [toggleOf (findNode "1.2")]))
  ∧ nextState mockTree
      (mkState ([toggleOf (findNode "1.1")] ++ [toggleOf (findNode "1.2")]))
      (toggleOf (findNode "1.2"))
    = Ok (mkState [toggleOf (findNode "1.1")])
  ∧ selectedNodes mockTree (mkState [toggleOf (findNode "1.1")]) = Ok [findNode "1.1"].
Proof.
  split; [vm_compute; reflexivity|]. split; [vm_compute; reflexivity|].
  apply (toggle_twice_cancels_unless_sole mockTree
           (mkState [toggleOf (findNode "1.1")]) (findNode "1.2") [findNode "1.1"]);
    vm_compute; reflexivity.
Defined.

(** Test 11 of the selection states: [toggle(1); toggle(1)] on the empty
    state leaves [1] selected. *)
Lemma toggle_twice_first_selection_stays_selected :
  ∃ s1 s2 l,
    nextState mockTree emptyState (toggleOf (findNode "1")) = Ok s1
    ∧ nextState mockTree s1 (toggleOf (findNode "1")) = Ok s2
    ∧ selectedNodes mockTree s2 = Ok l
    ∧ l = [findNode "1"]
    ∧ indexOf l (findNode "1") = 0%Z.
Proof.
  exists (mkState [toggleOf (findNode "1")]), (mkState [toggleOf (findNode "1")]),
    [findNode "1"].
  repeat split; vm_compute; reflexivity.
Qed.

(** * The selection service *)

(** C7. [addSelection] of a node that the tree does not validate is a
    no-op: the service keeps its state, no [selected] member changes and
    [onSelectionChanged] does not fire. *)
Theorem addSelection_of_unknown_node_is_noop (t : TreeImpl)
    (svc : TreeSelectionServiceImpl) (heap : Selected)
    (selectionOrTreeNode : TreeSelection + TreeNode) :
  validateNode t (Some (node (toSelection selectionOrTreeNode))) = None →
  addSelection t svc heap selectionOrTreeNode = Ok (svc, heap).
Proof. intros H. unfold addSelection. by rewrite H. Qed.

Lemma addSelection_of_unknown_node_is_noop_witness :
  validateNode mockTree (Some (node (toSelection (inr strayNode)))) = None
  ∧ addSelection mockTree newService ∅ (inr strayNode) = Ok (newService, ∅).
Proof.
  split; [vm_compute; reflexivity|].
  apply (addSelection_of_unknown_node_is_noop mockTree newService ∅ (inr strayNode)).
  vm_compute; reflexivity.
Defined.

(** ** The [selected] members follow the state *)

Lemma difference_elem (left right : list TreeNode) (a : nat) :
  a ∈ addr <$> difference left right ↔ a ∈ addr <$> left ∧ a ∉ addr <$> right.
Proof.
  unfold difference. induction left as [|x left IH]; simpl.
  - rewrite elem_of_nil. tauto.
  - case_bool_decide as E; simpl; rewrite ?elem_of_cons, IH.
    + apply indexOf_missing in E. split; [intros [->|[? ?]]; auto | tauto].
    + assert (addr x ∈ addr <$> right) by (by apply indexOf_found).
      split; [tauto | intros [[->|?] ?]; tauto].
Qed.

Lemma unselect_elem (nodes : list TreeNode) (heap : Selected) (a : nat) :
  a ∈ unselect nodes heap ↔ a ∈ heap ∧ a ∉ addr <$> nodes.
Proof.
  unfold unselect. revert heap. induction nodes as [|x nodes IH]; intros heap; simpl.
  - rewrite elem_of_nil. tauto.
  - rewrite IH, elem_of_cons. set_solver.
Qed.

Lemma select_elem (nodes : list TreeNode) (heap : Selected) (a : nat) :
  a ∈ select nodes heap ↔ a ∈ heap ∨ a ∈ addr <$> nodes.
Proof.
  unfold select. revert heap. induction nodes as [|x nodes IH]; intros heap; simpl.
  - rewrite elem_of_nil. tauto.
  - rewrite IH, elem_of_cons. set_solver.
Qed.

Section Consistency.

Variable t : TreeImpl.
Variable fresh : nat → Prop.

Lemma addSelection_consistent (svc : TreeSelectionServiceImpl) (heap : Selected)
    (arg : TreeSelection + TreeNode) (w' : TreeSelectionServiceImpl * Selected) :
  consistent t fresh (svc, heap) →
  addSelection t svc heap arg = Ok w' → consistent t fresh w'.
Proof.
  intros (old & Hold & Hflags). unfold addSelection.
  destruct (validateNode t _); [|by intros [= <-]; exists old].
  destruct (nextState t (state svc) (toSelection arg)) as [newState|]; simpl; [|done].
  simpl in Hold. rewrite Hold; simpl.
  destruct (selectedNodes t newState) as [new|] eqn:Hnew; simpl; [|done].
  destruct (bool_decide (length (difference old new) = 0)
            && bool_decide (length (difference new old) = 0)) eqn:Hd.
  { intros [= <-]. by exists old. }
  unfold fireSelectionChanged; cbn [state]. rewrite Hnew.
  intros [= <-]. exists new. split; [done|]. intros a Ha. cbn [snd].
  rewrite select_elem, unselect_elem, !difference_elem, (Hflags a Ha).
  destruct (decide (a ∈ addr <$> new)), (decide (a ∈ addr <$> old)); tauto.
Qed.

Lemma addSelections_consistent (args : list (TreeSelection + TreeNode))
    (w : TreeSelectionServiceImpl * Selected) :
  consistent t fresh w → consistent t fresh (addSelections t args w).
Proof.
  revert w. induction args as [|arg args IH]; intros [svc heap] Hw; simpl; [done|].
  destruct (addSelection t svc heap arg) as [w'|] eqn:E; apply IH; [|done].
  by eapply addSelection_consistent.
Qed.

End Consistency.

(** C6. Start with a tree whose nodes all have [selected === false] and a
    fresh service, and make any sequence of [addSelection] calls.  Then the
    service's [selectedNodes] are defined, and every selectable node of the
    tree has [selected === true] exactly when it is one of them. *)
Theorem selected_flags_project_the_state (t : TreeImpl)
    (args : list (TreeSelection + TreeNode)) (heap : Selected) :
  (∀ N, N ∈ treeNodes t → selected heap N = false) →
  ∃ l,
    selectedNodes t (state (addSelections t args (newService, heap)).1) = Ok l
    ∧ ∀ N, N ∈ treeNodes t → SelectableTreeNode.is_ (Some N) = true →
        selected (addSelections t args (newService, heap)).2 N = true
        ↔ indexOf l N ≠ (-1)%Z.
Proof.
  intros Hinit.
  destruct (addSelections_consistent t (fun a => a ∉ heap) args (newService, heap))
    as (l & Hl & Hflags).
  { exists []. split; [done|]. intros a Ha; simpl. rewrite elem_of_nil. tauto. }
  exists l. split; [done|]. intros N HN _.
  unfold selected. rewrite bool_decide_eq_true, indexOf_found.
  apply Hflags. specialize (Hinit N HN). unfold selected in Hinit.
  by apply bool_decide_eq_false in Hinit.
Qed.

Lemma selected_flags_project_the_state_witness :
  (∀ N, N ∈ treeNodes mockTree → selected ∅ N = false)
  ∧ ∃ l,
      selectedNodes mockTree
        (state (addSelections mockTree
                  [inl (toggleOf (findNode "1.1")); inl (rangeOf (findNode "1.2"));
                   inr (findNode "1.3")]
                  (newService, ∅)).1) = Ok l
      ∧ ∀ N, N ∈ treeNodes mockTree → SelectableTreeNode.is_ (Some N) = true →
          selected (addSelections mockTree
                      [inl (toggleOf (findNode "1.1")); inl (rangeOf (findNode "1.2"));
                       inr (findNode "1.3")]
                      (newService, ∅)).2 N = true
          ↔ indexOf l N ≠ (-1)%Z.
Proof.
  assert (∀ N, N ∈ treeNodes mockTree → selected ∅ N = false) as H.
  { intros N _. apply bool_decide_eq_false_2, not_elem_of_empty. }
  split; [exact H|].
  apply (selected_flags_project_the_state mockTree
           [inl (toggleOf (findNode "1.1")); inl (rangeOf (findNode "1.2"));
            inr (findNode "1.3")] ∅ H).
Defined.

(** * The index of the tree *)

Lemma TreeNode_nested_ind (P : TreeNode → Prop) :
  (∀ n, children n = None → P n) →
  (∀ n cs, children n = Some cs → Forall P cs → P n) →
  ∀ n, P n.
Proof.
  intros Hleaf Hnode. fix IH 1. intros [a i p s e [cs|]]; [|by apply Hleaf].
  apply (Hnode _ cs); [done|].
  induction cs as [|c cs IHcs]; constructor; [apply IH | exact IHcs].
Qed.

Lemma subtree_unfold (n : TreeNode) :
  subtree n = n :: flat_map subtree (childrenOf n).
Proof. destruct n as [a i p s e [cs|]]; reflexivity. Qed.

Lemma addNode_index_unfold (n : TreeNode) (idx : gmap string TreeNode) :
  addNode_index n idx
  = fold_left (fun acc child => addNode_index child acc) (childrenOf n) (<[id n := n]> idx).
Proof. destruct n as [a i p s e [cs|]]; reflexivity. Qed.

Lemma removeNode_index_unfold (n : TreeNode) (idx : gmap string TreeNode) :
  removeNode_index n idx
  = delete (id n) (fold_left (fun acc child => removeNode_index child acc) (childrenOf n) idx).
Proof. destruct n as [a i p s e [cs|]]; reflexivity. Qed.

Lemma childrenOf_Forall (P : TreeNode → Prop) (n : TreeNode) :
  (∀ cs, children n = Some cs → Forall P cs) → Forall P (childrenOf n).
Proof.
  unfold childrenOf. destruct (children n) as [cs|]; simpl; [auto | constructor].
Qed.

Lemma lastWithId_app (i : string) (l1 l2 : list TreeNode) :
  lastWithId i (l1 ++ l2)
  = match lastWithId i l2 with Some m => Some m | None => lastWithId i l1 end.
Proof.
  unfold lastWithId. rewrite filter_app, last_app. done.
Qed.

Lemma lastWithId_cons (i : string) (n : TreeNode) (l : list TreeNode) :
  lastWithId i (n :: l)
  = match lastWithId i l with
    | Some m => Some m
    | None => if decide (id n = i) then Some n else None
    end.
Proof.
  change (n :: l) with ([n] ++ l). rewrite lastWithId_app.
  destruct (lastWithId i l); [done|].
  unfold lastWithId. rewrite filter_cons. by destruct (decide (id n = i)).
Qed.

Lemma lastWithId_Some (i : string) (l : list TreeNode) (m : TreeNode) :
  lastWithId i l = Some m → m ∈ l ∧ id m = i.
Proof.
  unfold lastWithId. intros H. apply last_Some_elem_of in H.
  apply list_elem_of_filter in H. tauto.
Qed.

Lemma lastWithId_None (i : string) (l : list TreeNode) :
  lastWithId i l = None ↔ i ∉ id <$> l.
Proof.
  unfold lastWithId. rewrite last_None. split.
  - intros H Hin. apply list_elem_of_fmap in Hin as (m & -> & Hm).
    assert (m ∈ filter (fun m' => id m' = id m) l) as Hf
      by (by apply list_elem_of_filter).
    rewrite H in Hf. by apply elem_of_nil in Hf.
  - intros H. apply elem_of_nil_inv. intros m Hm.
    apply list_elem_of_filter in Hm as [<- Hm]. apply H.
    by apply list_elem_of_fmap_2.
Qed.

Lemma lastWithId_unique (i : string) (l : list TreeNode) (m : TreeNode) :
  NoDup (id <$> l) → m ∈ l → id m = i → lastWithId i l = Some m.
Proof.
  induction l as [|n l IH]; intros Hnd Hm Hi; [by apply elem_of_nil in Hm|].
  rewrite fmap_cons in Hnd. apply NoDup_cons in Hnd as [Hn Hnd].
  rewrite lastWithId_cons. apply elem_of_cons in Hm as [->|Hm].
  - assert (lastWithId i l = None) as ->.
    { apply lastWithId_None. by rewrite <- Hi. }
    by rewrite decide_True.
  - by rewrite (IH Hnd Hm Hi).
Qed.

Lemma addNode_index_lookup (n : TreeNode) (idx : gmap string TreeNode) (i : string) :
  addNode_index n idx !! i
  = match lastWithId i (subtree n) with Some m => Some m | None => idx !! i end.
Proof.
  revert idx. induction n as [n Hn|n cs Hn IH] using TreeNode_nested_ind; intros idx;
    rewrite addNode_index_unfold, subtree_unfold, lastWithId_cons;
    unfold childrenOf; rewrite Hn; simpl.
  - unfold lastWithId; simpl. destruct (decide (id n = i)) as [<-|Hne].
    + by rewrite lookup_insert_eq.
    + by rewrite lookup_insert_ne.
  - assert (∀ idx0,
      fold_left (fun acc child => addNode_index child acc) cs idx0 !! i
      = match lastWithId i (flat_map subtree cs) with
        | Some m => Some m
        | None => idx0 !! i
        end) as Hcs.
    { clear Hn. induction IH as [|c cs Hc _ IHcs]; intros idx0; simpl; [done|].
      rewrite IHcs, lastWithId_app, Hc.
      by destruct (lastWithId i (flat_map subtree cs)). }
    rewrite Hcs. destruct (lastWithId i (flat_map subtree cs)); [done|].
    destruct (decide (id n = i)) as [<-|Hne].
    + by rewrite lookup_insert_eq.
    + by rewrite lookup_insert_ne.
Qed.

Lemma removeNode_index_lookup (n : TreeNode) (idx : gmap string TreeNode) (i : string) :
  removeNode_index n idx !! i
  = if decide (i ∈ id <$> subtree n) then None else idx !! i.
Proof.
  revert idx. induction n as [n Hn|n cs Hn IH] using TreeNode_nested_ind; intros idx;
    rewrite removeNode_index_unfold, subtree_unfold;
    unfold childrenOf; rewrite Hn; simpl.
  - destruct (decide (id n = i)) as [<-|Hne].
    + rewrite lookup_delete_eq. rewrite decide_True; [done | by left].
    + rewrite lookup_delete_ne by done. rewrite decide_False; [done|].
      rewrite list_elem_of_singleton. congruence.
  - assert (∀ idx0,
      fold_left (fun acc child => removeNode_index child acc) cs idx0 !! i
      = if decide (i ∈ id <$> flat_map subtree cs) then None else idx0 !! i) as Hcs.
    { clear Hn. induction IH as [|c cs Hc _ IHcs]; intros idx0; simpl.
      - done.
      - rewrite IHcs, Hc, fmap_app.
        repeat case_decide; try done; set_solver. }
    destruct (decide (id n = i)) as [<-|Hne].
    + rewrite lookup_delete_eq. rewrite decide_True; [done | by left].
    + rewrite lookup_delete_ne, Hcs by done.
      repeat case_decide; try done; set_solver.
Qed.

Lemma refresh_root (raw : option TreeNode) (t : TreeImpl) :
  _root (refresh raw t) = _root t.
Proof.
  unfold refresh. destruct (refreshParent raw t) as [p|]; [|done].
  by destruct (CompositeTreeNode.is_ (Some p)).
Qed.

Lemma refresh_nodes (raw : option TreeNode) (t : TreeImpl) :
  nodes (refresh raw t) = nodes t.
Proof.
  unfold refresh. destruct (refreshParent raw t) as [p|]; [|done].
  by destruct (CompositeTreeNode.is_ (Some p)).
Qed.

Lemma set_root_root (r : option TreeNode) (t : TreeImpl) :
  _root (set_root r t) = r.
Proof. unfold set_root. rewrite refresh_root. by destruct r. Qed.

Lemma set_root_nodes (r : TreeNode) (t : TreeImpl) :
  nodes (set_root (Some r) t) = addNode_index r ∅.
Proof. unfold set_root. by rewrite refresh_nodes. Qed.



(** X2. After [tree.root = r] every node of the tree validates: the index
    has a node of the tree with the same id, and when the ids of the tree
    are all different it is the node itself. *)
Theorem set_root_validates (r : TreeNode) (t : TreeImpl) (N : TreeNode) :
  N ∈ treeNodes (set_root (Some r) t) →
  ∃ M, validateNode (set_root (Some r) t) (Some N) = Some M
       ∧ id M = id N
       ∧ M ∈ treeNodes (set_root (Some r) t)
       ∧ (NoDup (id <$> treeNodes (set_root (Some r) t)) → M = N).
Proof.
  unfold validateNode, getNode, treeNodes.
  rewrite set_root_nodes, set_root_root, addNode_index_lookup.
  change (DepthFirstTreeIterator false r) with (subtree r). intros HN.
  destruct (lastWithId (id N) (subtree r)) as [M|] eqn:E.
  - exists M. destruct (lastWithId_Some _ _ _ E) as [HM Hid].
    repeat split; try done. intros Hnd.
    rewrite (lastWithId_unique (id N) _ N Hnd HN eq_refl) in E. congruence.
  - apply lastWithId_None in E. destruct E. by apply list_elem_of_fmap_2.
Qed.

Lemma set_root_validates_witness :
  findNode "1.2" ∈ treeNodes (set_root (Some MockTreeModel.MOCK_ROOT) newTreeImpl)
  ∧ ∃ M, validateNode (set_root (Some MockTreeModel.MOCK_ROOT) newTreeImpl)
           (Some (findNode "1.2")) = Some M
         ∧ id M = id (findNode "1.2")
         ∧ M ∈ treeNodes (set_root (Some MockTreeModel.MOCK_ROOT) newTreeImpl)
         ∧ (NoDup (id <$> treeNodes (set_root (Some MockTreeModel.MOCK_ROOT) newTreeImpl))
            → M = findNode "1.2").
Proof.
  assert (findNode "1.2"
          ∈ treeNodes (set_root (Some MockTreeModel.MOCK_ROOT) newTreeImpl)) as H.
  { apply list_elem_of_lookup. exists 4. vm_compute; reflexivity. }
  split; [exact H|].
  apply (set_root_validates MockTreeModel.MOCK_ROOT newTreeImpl (findNode "1.2") H).
Defined.


Lemma removeNode_addNode_index (r : TreeNode) :
  removeNode_index r (addNode_index r ∅) = ∅.
Proof.
  apply map_eq. intros i.
  rewrite removeNode_index_lookup, addNode_index_lookup, lookup_empty.
  case_decide as Hi; [done|].
  apply lastWithId_None in Hi. by rewrite Hi.
Qed.

(** X4. The refresh that [tree.root = r] starts for a composite root, with
    the children resolved to what they are, ends with the same root and
    the same index as before it ran, and the three events of the whole
    assignment are [onChanged], [onNodeRefreshed(r)], [onChanged]. *)
Theorem set_root_refresh_keeps_index (r : TreeNode) (t : TreeImpl) :
  CompositeTreeNode.is_ (Some r) = true →
  microtasks t = [] →
  _root (runMicrotask (set_root (Some r) t)) = Some r
  ∧ nodes (runMicrotask (set_root (Some r) t)) = nodes (set_root (Some r) t)
  ∧ microtasks (runMicrotask (set_root (Some r) t)) = []
  ∧ fired (runMicrotask (set_root (Some r) t))
    = fired t ++ [Changed; NodeRefreshed r; Changed].
Proof.
  intros Hc Hq. pose proof Hc as Hc'. simpl in Hc'.
  apply bool_decide_eq_true in Hc' as [cs Hcs].
  assert (assign_children (addr r) (resolveChildren r) r = r) as Hself.
  { unfold resolveChildren. rewrite Hcs. by apply assign_children_self. }
  rewrite set_root_nodes.
  unfold set_root, refresh, refreshParent, runMicrotask; simpl.
  rewrite Hcs, Hq; simpl. unfold setChildren; simpl.
  rewrite Hself, removeNode_addNode_index, fmap_empty; simpl.
  repeat split; try done. by rewrite <- !app_assoc.
Qed.

Lemma set_root_refresh_keeps_index_witness :
  CompositeTreeNode.is_ (Some MockTreeModel.MOCK_ROOT) = true
  ∧ microtasks newTreeImpl = []
  ∧ _root (runMicrotask (set_root (Some MockTreeModel.MOCK_ROOT) newTreeImpl))
    = Some MockTreeModel.MOCK_ROOT
  ∧ nodes (runMicrotask (set_root (Some MockTreeModel.MOCK_ROOT) newTreeImpl))
    = nodes (set_root (Some MockTreeModel.MOCK_ROOT) newTreeImpl)
  ∧ microtasks (runMicrotask (set_root (Some MockTreeModel.MOCK_ROOT) newTreeImpl)) = []
  ∧ fired (runMicrotask (set_root (Some MockTreeModel.MOCK_ROOT) newTreeImpl))
    = fired newTreeImpl ++ [Changed; NodeRefreshed MockTreeModel.MOCK_ROOT; Changed].
Proof.
  split; [vm_compute; reflexivity|]. split; [reflexivity|].
  apply (set_root_refresh_keeps_index MockTreeModel.MOCK_ROOT newTreeImpl);
    [vm_compute; reflexivity | reflexivity].
Defined.

(** * Children and siblings *)

Lemma findIndex_from_bounds {A : Type} (p : A → bool) (l : list A) (k : Z) :
  (findIndex_from p l k = -1 ∨ k ≤ findIndex_from p l k)%Z.
Proof.
  revert k. induction l as [|x l IH]; intros k; simpl; [by left|].
  destruct (p x); [right; lia|].
  destruct (IH (k + 1)%Z) as [->|H]; [by left | right; lia].
Qed.

Lemma findIndex_from_shift {A : Type} (p : A → bool) (l : list A) (k : Z) :
  findIndex_from p l k
  = if bool_decide (findIndex_from p l 0 = -1)%Z then (-1)%Z
    else (k + findIndex_from p l 0)%Z.
Proof.
  revert k. induction l as [|x l IH]; intros k; simpl; [done|].
  destruct (p x).
  - rewrite bool_decide_eq_false_2 by lia. lia.
  - rewrite (IH (k + 1)%Z), (IH (0 + 1)%Z).
    pose proof (findIndex_from_bounds p l 0) as Hb.
    repeat case_bool_decide; lia.
Qed.

Lemma findIndex_cons {A : Type} (p : A → bool) (x : A) (l : list A) :
  findIndex p (x :: l)
  = if p x then 0%Z
    else if bool_decide (findIndex p l = -1)%Z then (-1)%Z
         else (1 + findIndex p l)%Z.
Proof.
  unfold findIndex; simpl. destruct (p x); [done|]. apply findIndex_from_shift.
Qed.

(** What [findIndex] returns: [-1] when no element satisfies [p], else the
    index of the first one that does. *)
Lemma findIndex_spec {A : Type} (p : A → bool) (l : list A) :
  (findIndex p l = (-1)%Z ∧ Forall (fun x => p x = false) l)
  ∨ ∃ (i : nat) (x : A),
      findIndex p l = Z.of_nat i ∧ l !! i = Some x ∧ p x = true
      ∧ Forall (fun y => p y = false) (take i l).
Proof.
  induction l as [|x l IH]; [left; by split|].
  rewrite findIndex_cons. destruct (p x) eqn:Ex.
  - right. exists 0, x. repeat split; first [done | constructor].
  - destruct IH as [[-> Hall]|(i & y & -> & Hy & Hp & Hbefore)].
    + left. rewrite bool_decide_eq_true_2 by done. split; [done | by constructor].
    + right. exists (S i), y. rewrite bool_decide_eq_false_2 by lia.
      repeat split; try done; [lia|]. simpl. by constructor.
Qed.

Lemma TreeNode_equals_distinct (c x : TreeNode) :
  addr c ≠ addr x → id c ≠ id x → TreeNode_equals (Some c) (Some x) = false.
Proof.
  intros Ha Hi. simpl. apply orb_false_iff. split.
  - apply Nat.eqb_neq. done.
  - by apply bool_decide_eq_false_2.
Qed.

Lemma TreeNode_equals_refl (c : TreeNode) : TreeNode_equals (Some c) (Some c) = true.
Proof. simpl. by rewrite same_refl. Qed.

Lemma findIndex_child (cs : list TreeNode) (i : nat) (c : TreeNode) :
  distinct cs → cs !! i = Some c →
  findIndex (fun child => TreeNode_equals (Some c) (Some child)) cs = Z.of_nat i.
Proof.
  revert i. induction cs as [|x cs IH]; intros i [Hid Haddr] Hc; [done|].
  rewrite !fmap_cons in *. apply NoDup_cons in Hid as [Hx Hid].
  apply NoDup_cons in Haddr as [Hx' Haddr].
  rewrite findIndex_cons. destruct i as [|i]; simpl in Hc.
  - injection Hc as ->. by rewrite TreeNode_equals_refl.
  - assert (c ∈ cs) as Hin by (by eapply list_elem_of_lookup_2).
    rewrite TreeNode_equals_distinct.
    + rewrite (IH i) by done. rewrite bool_decide_eq_false_2 by lia. lia.
    + intros E. apply Hx'. rewrite <- E. by apply list_elem_of_fmap_2.
    + intros E. apply Hx. rewrite <- E. by apply list_elem_of_fmap_2.
Qed.

(** X5. In a parent whose children have ids and addresses that are all
    different, [CompositeTreeNode.indexOf] of the child at index [i] is
    [i], so [parent.children[indexOf(parent, child)]] is the child again. *)
Theorem indexOf_of_child (parent : TreeNode) (cs : list TreeNode) (i : nat) (c : TreeNode) :
  children parent = Some cs → distinct cs → cs !! i = Some c →
  CompositeTreeNode_indexOf parent (Some c) = Z.of_nat i
  ∧ element (childrenOf parent) (CompositeTreeNode_indexOf parent (Some c)) = Some c.
Proof.
  intros Hcs Hd Hc. unfold CompositeTreeNode_indexOf, childrenOf. rewrite Hcs.
  change (default [] (Some cs)) with cs.
  rewrite (findIndex_child _ _ _ Hd Hc). split; [done|].
  unfold element. rewrite bool_decide_eq_false_2 by lia. by rewrite Nat2Z.id.
Qed.

Lemma mock_children_distinct (nodeId : string) :
  nodeId ∈ ["1"; "1.1"; "1.2"; "1.2.1"] →
  distinct (childrenOf (findNode nodeId)).
Proof.
  intros H. repeat (apply elem_of_cons in H as [->|H]);
    [| | | |by apply elem_of_nil in H];
    (split; apply (bool_decide_unpack _); vm_compute; exact I).
Qed.

Lemma indexOf_of_child_witness :
  children (findNode "1.2") = Some (childrenOf (findNode "1.2"))
  ∧ distinct (childrenOf (findNode "1.2"))
  ∧ childrenOf (findNode "1.2") !! 1 = Some (findNode "1.2.2")
  ∧ CompositeTreeNode_indexOf (findNode "1.2") (Some (findNode "1.2.2")) = Z.of_nat 1
  ∧ element (childrenOf (findNode "1.2"))
      (CompositeTreeNode_indexOf (findNode "1.2") (Some (findNode "1.2.2")))
    = Some (findNode "1.2.2").
Proof.
  assert (distinct (childrenOf (findNode "1.2"))) as Hd.
  { apply mock_children_distinct. set_solver. }
  split; [vm_compute; reflexivity|]. split; [exact Hd|].
  split; [vm_compute; reflexivity|].
  apply (indexOf_of_child (findNode "1.2") (childrenOf (findNode "1.2")) 1
           (findNode "1.2.2")); [vm_compute; reflexivity | exact Hd | vm_compute; reflexivity].
Defined.

(** X6. [CompositeTreeNode.indexOf] returns [-1] for no node at all and for
    a node that no child equals; any other result is the index of the first
    child that equals the node, by identity or by id. *)
Theorem indexOf_first_equal (parent : TreeNode) (node : option TreeNode) :
  CompositeTreeNode_indexOf parent None = (-1)%Z
  ∧ ((CompositeTreeNode_indexOf parent node = (-1)%Z
      ∧ (node = None
         ∨ Forall (fun child => TreeNode_equals node (Some child) = false)
             (childrenOf parent)))
     ∨ ∃ (i : nat) (child : TreeNode),
         CompositeTreeNode_indexOf parent node = Z.of_nat i
         ∧ childrenOf parent !! i = Some child
         ∧ TreeNode_equals node (Some child) = true
         ∧ Forall (fun before => TreeNode_equals node (Some before) = false)
             (take i (childrenOf parent))).
Proof.
  split; [done|]. destruct node as [n|]; [|left; split; [done | by left]].
  unfold CompositeTreeNode_indexOf.
  destruct (findIndex_spec (fun child => TreeNode_equals (Some n) (Some child))
              (childrenOf parent)) as [[-> H]|(i & x & -> & Hx & Hp & Hb)].
  - left. split; [done | by right].
  - right. by exists i, x.
Qed.

Lemma findIndex_none {A : Type} (p : A → bool) (l : list A) :
  Forall (fun x => p x = false) l → findIndex p l = (-1)%Z.
Proof.
  intros Hall. destruct (findIndex_spec p l) as [[H _]|(i & x & _ & Hx & Hp & _)]; [done|].
  apply list_elem_of_lookup_2 in Hx.
  rewrite Forall_forall in Hall. rewrite (Hall x Hx) in Hp. done.
Qed.

Lemma parentOf_Some (objects : gmap nat TreeNode) (n : TreeNode) (a : nat) :
  parent n = Some a → parentOf objects n = objects !! a.
Proof. unfold parentOf. by intros ->. Qed.

(** X7. For the child at index [i] of its parent, in a parent whose children
    have ids and addresses that are all different: [getPrevSibling] is the
    child at [i - 1] and [undefined] for the first child, [getNextSibling]
    is the child at [i + 1] and [undefined] for the last one. *)
Theorem siblings_of_child (objects : gmap nat TreeNode) (p : TreeNode)
    (cs : list TreeNode) (i : nat) (c : TreeNode) :
  parent c = Some (addr p) → objects !! addr p = Some p →
  children p = Some cs → distinct cs → cs !! i = Some c →
  TreeNode_getPrevSibling objects (Some c)
    = match i with O => None | S j => cs !! j end
  ∧ TreeNode_getNextSibling objects (Some c) = cs !! S i.
Proof.
  intros Hpar Hobj Hcs Hd Hc.
  unfold TreeNode_getPrevSibling, TreeNode_getNextSibling.
  rewrite (parentOf_Some _ _ _ Hpar), Hobj.
  unfold CompositeTreeNode_indexOf, childrenOf. rewrite Hcs.
  change (default [] (Some cs)) with cs.
  rewrite (findIndex_child _ _ _ Hd Hc). unfold element. split.
  - destruct i as [|j]; [done|].
    rewrite bool_decide_eq_false_2 by lia. f_equal. lia.
  - rewrite bool_decide_eq_false_2 by lia. f_equal. lia.
Qed.

Lemma siblings_of_child_witness :
  parent (findNode "1.2.2") = Some (addr (findNode "1.2"))
  ∧ mockObjects !! addr (findNode "1.2") = Some (findNode "1.2")
  ∧ children (findNode "1.2") = Some (childrenOf (findNode "1.2"))
  ∧ distinct (childrenOf (findNode "1.2"))
  ∧ childrenOf (findNode "1.2") !! 1 = Some (findNode "1.2.2")
  ∧ TreeNode_getPrevSibling mockObjects (Some (findNode "1.2.2"))
    = childrenOf (findNode "1.2") !! 0
  ∧ TreeNode_getNextSibling mockObjects (Some (findNode "1.2.2"))
    = childrenOf (findNode "1.2") !! 2.
Proof.
  assert (distinct (childrenOf (findNode "1.2"))) as Hd.
  { apply mock_children_distinct. set_solver. }
  split; [vm_compute; reflexivity|]. split; [vm_compute; reflexivity|].
  split; [vm_compute; reflexivity|]. split; [exact Hd|].
  split; [vm_compute; reflexivity|].
  apply (siblings_of_child mockObjects (findNode "1.2") (childrenOf (findNode "1.2")) 1
           (findNode "1.2.2"));
    [vm_compute; reflexivity | vm_compute; reflexivity | vm_compute; reflexivity
    | exact Hd | vm_compute; reflexivity].
Defined.

(** X8. For a node that names a parent but equals none of the parent's
    children, as a node does that a refresh has replaced,
    [getNextSibling] is the first child of the parent (of index
    [-1 + 1]) and [getPrevSibling] is [undefined]. *)
Theorem siblings_of_detached_node (objects : gmap nat TreeNode) (p n : TreeNode) :
  parent n = Some (addr p) → objects !! addr p = Some p →
  Forall (fun child => TreeNode_equals (Some n) (Some child) = false) (childrenOf p) →
  TreeNode_getNextSibling objects (Some n) = CompositeTreeNode_getFirstChild p
  ∧ TreeNode_getPrevSibling objects (Some n) = None.
Proof.
  intros Hpar Hobj Hall.
  unfold TreeNode_getPrevSibling, TreeNode_getNextSibling.
  rewrite (parentOf_Some _ _ _ Hpar), Hobj.
  unfold CompositeTreeNode_indexOf, CompositeTreeNode_getFirstChild.
  rewrite (findIndex_none _ _ Hall). done.
Qed.

Lemma siblings_of_detached_node_witness :
  parent detachedNode = Some (addr (findNode "1.2"))
  ∧ mockObjects !! addr (findNode "1.2") = Some (findNode "1.2")
  ∧ Forall (fun child => TreeNode_equals (Some detachedNode) (Some child) = false)
      (childrenOf (findNode "1.2"))
  ∧ TreeNode_getNextSibling mockObjects (Some detachedNode)
    = CompositeTreeNode_getFirstChild (findNode "1.2")
  ∧ TreeNode_getPrevSibling mockObjects (Some detachedNode) = None.
Proof.
  assert (Forall (fun child => TreeNode_equals (Some detachedNode) (Some child) = false)
            (childrenOf (findNode "1.2"))) as Hall.
  { apply Forall_forall. intros child Hin.
    apply list_elem_of_lookup in Hin as [i Hi].
    destruct i as [|[|[|i]]]; vm_compute in Hi; [| | |done];
      injection Hi as <-; vm_compute; reflexivity. }
  split; [vm_compute; reflexivity|]. split; [vm_compute; reflexivity|].
  split; [exact Hall|].
  apply (siblings_of_detached_node mockObjects (findNode "1.2") detachedNode);
    [vm_compute; reflexivity | vm_compute; reflexivity | exact Hall].
Defined.

(** * More about the selection state machine *)

Lemma setKeys_acc_NoDup (l keys : list TreeNode) :
  NoDup (addr <$> keys) →
  NoDup (addr <$> fold_left
           (fun keys n => if existsb (same n) keys then keys else keys ++ [n]) l keys).
Proof.
  revert keys. induction l as [|x l IH]; intros keys Hk; simpl; [done|].
  apply IH. destruct (existsb (same x) keys) eqn:E; [done|].
  rewrite fmap_app. apply NoDup_app. split; [done|]. split.
  - intros a Ha Hx. apply list_elem_of_singleton in Hx as ->.
    apply existsb_same in Ha. congruence.
  - apply NoDup_singleton.
Qed.

Lemma setKeys_NoDup (l : list TreeNode) : NoDup (addr <$> setKeys l).
Proof. apply setKeys_acc_NoDup. constructor. Qed.

Lemma selectedNodes_setKeys (t : TreeImpl) (s : TreeSelectionState) (l : list TreeNode) :
  selectedNodes t s = Ok l → ∃ nodes, l = setKeys nodes.
Proof.
  unfold selectedNodes.
  destruct (checkNoDefaultSelection (selectionStack s)) as [copy|]; simpl; [|done].
  destruct (fold_left (selectedNodes_step t) copy ([], None)) as [nodes la].
  intros [= <-]. by eexists.
Qed.

(** X9. [selectedNodes()] returns no object twice. *)
Theorem selectedNodes_has_no_duplicates (t : TreeImpl) (s : TreeSelectionState)
    (l : list TreeNode) :
  selectedNodes t s = Ok l → NoDup (addr <$> l).
Proof.
  intros H. apply selectedNodes_setKeys in H as [nodes ->]. apply setKeys_NoDup.
Qed.

Lemma selectedNodes_has_no_duplicates_witness :
  selectedNodes mockTree
    (mkState [toggleOf (findNode "1.1"); toggleOf (findNode "1.2");
              rangeOf (findNode "1.1")])
  = Ok (findNode <$> ["1.1"; "1.1.1"; "1.1.2"; "1.2"])
  ∧ NoDup (addr <$> (findNode <$> ["1.1"; "1.1.1"; "1.1.2"; "1.2"])).
Proof.
  assert (selectedNodes mockTree
            (mkState [toggleOf (findNode "1.1"); toggleOf (findNode "1.2");
                      rangeOf (findNode "1.1")])
          = Ok (findNode <$> ["1.1"; "1.1.1"; "1.1.2"; "1.2"])) as H
    by (vm_compute; reflexivity).
  split; [exact H|].
  apply (selectedNodes_has_no_duplicates mockTree _ _ H).
Defined.

Lemma setKeys_acc_cons (l keys : list TreeNode) (x : TreeNode) :
  ¬ occurs x l →
  fold_left (fun keys n => if existsb (same n) keys then keys else keys ++ [n]) l
    (x :: keys)
  = x :: fold_left (fun keys n => if existsb (same n) keys then keys else keys ++ [n])
           l keys.
Proof.
  unfold occurs. revert keys. induction l as [|y l IH]; intros keys Hx; simpl; [done|].
  rewrite fmap_cons, not_elem_of_cons in Hx. destruct Hx as [Hxy Hx].
  assert (same y x = false) as ->.
  { apply Nat.eqb_neq. congruence. }
  simpl. destruct (existsb (same y) keys); by rewrite IH.
Qed.

Lemma setKeys_cons (l : list TreeNode) (x : TreeNode) :
  ¬ occurs x l → setKeys (x :: l) = x :: setKeys l.
Proof. intros H. unfold setKeys; simpl. by apply (setKeys_acc_cons l []). Qed.

(** X10. A TOGGLE selection of a node that is not selected adds the node
    and nothing else: the selected nodes afterwards are the node followed
    by the selected nodes before. *)
Theorem toggle_of_unselected_node_adds_it (t : TreeImpl) (s : TreeSelectionState)
    (X : TreeNode) (l : list TreeNode) :
  selectedNodes t s = Ok l →
  indexOf l X = (-1)%Z →
  ∃ s', nextState t s (toggleOf X) = Ok s' ∧ selectedNodes t s' = Ok (X :: l).
Proof.
  destruct s as [stack]. intros Hl HX. apply indexOf_missing in HX.
  destruct (selectedNodes_inv t X _ _ Hl) as [Hc Hocc].
  assert (¬ occurs X (fold_left (selectedNodes_step t) stack ([], None)).1)
    as Hun by (by rewrite <- Hocc).
  exists (mkState (stack ++ [toggleOf X])). split.
  { unfold nextState; simpl type; cbn iota; simpl node.
    by apply handleToggle_unselected. }
  assert (noDefault (stack ++ [toggleOf X])) as Hc'.
  { apply Forall_app. split; [done | by repeat constructor]. }
  revert Hl. unfold selectedNodes; simpl.
  rewrite (checkNoDefaultSelection_ok _ Hc), (checkNoDefaultSelection_ok _ Hc').
  simpl. rewrite fold_left_app; simpl.
  destruct (fold_left (selectedNodes_step t) stack ([], None)) as [nodes la].
  simpl in *. intros [= <-]. rewrite reverse_snoc, setKeys_cons; [done|].
  unfold occurs. by rewrite fmap_reverse, elem_of_reverse.
Qed.

Lemma toggle_of_unselected_node_adds_it_witness :
  selectedNodes mockTree (mkState [toggleOf (findNode "1.1")]) = Ok [findNode "1.1"]
  ∧ indexOf [findNode "1.1"] (findNode "1.3") = (-1)%Z
  ∧ ∃ s', nextState mockTree (mkState [toggleOf (findNode "1.1")]) (toggleOf (findNode "1.3"))
          = Ok s'
          ∧ selectedNodes mockTree s' = Ok [findNode "1.3"; findNode "1.1"].
Proof.
  split; [vm_compute; reflexivity|]. split; [vm_compute; reflexivity|].
  apply (toggle_of_unselected_node_adds_it mockTree
           (mkState [toggleOf (findNode "1.1")]) (findNode "1.3") [findNode "1.1"]);
    vm_compute; reflexivity.
Defined.

(** X11. A RANGE selection on a service that has selected nothing yet
    changes nothing: the range has no node to start from and is empty, so
    the state the service holds, the [selected] members and the events
    stay as they are.  The state machine itself moves to the stack of that
    one RANGE entry, whose selected nodes are none. *)
Theorem first_range_selects_nothing (t : TreeImpl) (n : TreeNode) (heap : Selected) :
  nextState t emptyState (rangeOf n) = Ok (mkState [rangeOf n])
  ∧ selectedNodes t (mkState [rangeOf n]) = Ok []
  ∧ addSelection t newService heap (inl (rangeOf n)) = Ok (newService, heap).
Proof.
  split; [reflexivity|]. split; [reflexivity|].
  unfold addSelection. by destruct (validateNode t _).
Qed.

(** X12. [toggle(A); range(B)] on the empty state: the stack is TOGGLE(A),
    RANGE(B), and the selected nodes are the range from [A] to [B], last
    node first; [A] is selected only as a node of that range. *)
Theorem toggle_then_range_selects_the_range (t : TreeImpl) (A B : TreeNode) :
  nextState t emptyState (toggleOf A) = Ok (mkState [toggleOf A])
  ∧ nextState t (mkState [toggleOf A]) (rangeOf B) = Ok (mkState [toggleOf A; rangeOf B])
  ∧ selectedNodes t (mkState [toggleOf A; rangeOf B])
    = Ok (setKeys (reverse (selectionRange t (Some A) B))).
Proof.
  split; [reflexivity|]. split; [|reflexivity].
  unfold nextState, handleRange; simpl. by case_bool_decide.
Qed.

(** X13. When the node the range starts from is no longer valid in the
    tree, the range is empty: after [toggle(A); range(B)] with a stale [A]
    and another node [B], nothing is selected, neither [A] nor [B]. *)
Theorem range_from_stale_node_selects_nothing (t : TreeImpl) (A B : TreeNode) :
  validateNode t (Some A) = None → same B A = false →
  selectedNodes t (mkState [toggleOf A; rangeOf B]) = Ok [].
Proof.
  intros HA Hne. change (selectedNodes t (mkState [toggleOf A; rangeOf B]))
    with (Ok (A:=list TreeNode) (setKeys (reverse (selectionRange t (Some A) B)))).
  unfold selectionRange. rewrite Hne.
  destruct (_root t); [|done]. destruct (validateNode t (Some B)); [|done].
  by rewrite HA.
Qed.

Lemma range_from_stale_node_selects_nothing_witness :
  validateNode mockTree (Some strayNode) = None
  ∧ same (findNode "1.1") strayNode = false
  ∧ selectedNodes mockTree (mkState [toggleOf strayNode; rangeOf (findNode "1.1")]) = Ok [].
Proof.
  split; [vm_compute; reflexivity|]. split; [vm_compute; reflexivity|].
  apply (range_from_stale_node_selects_nothing mockTree strayNode (findNode "1.1"));
    vm_compute; reflexivity.
Defined.

(** ** Ranges *)

Lemma collectRange_subseteq (from to n : TreeNode) (started : bool) (it : list TreeNode) :
  n ∈ collectRange from to started it → n ∈ it.
Proof.
  revert started. induction it as [|x it IH]; intros started; simpl; [done|].
  destruct (same x from || same x to), started; intros H.
  - apply list_elem_of_singleton in H as ->. by left.
  - apply elem_of_cons in H as [->|H]; [by left | right; by eapply IH].
  - apply elem_of_cons in H as [->|H]; [by left | right; by eapply IH].
  - right. by eapply IH.
Qed.

Lemma collectRange_comm (a b : TreeNode) (started : bool) (it : list TreeNode) :
  collectRange a b started it = collectRange b a started it.
Proof.
  revert started. induction it as [|x it IH]; intros started; simpl; [done|].
  rewrite (orb_comm (same x a) (same x b)).
  destruct (same x b || same x a), started; by rewrite ?IH.
Qed.

Lemma List_filter_elem (p : TreeNode → bool) (l : list TreeNode) (n : TreeNode) :
  n ∈ List.filter p l ↔ n ∈ l ∧ p n = true.
Proof. rewrite !list_elem_of_In. apply filter_In. Qed.

(** X14. Every node of a range between two different nodes is selectable
    and is one of the nodes the iterator visits from the root, which leaves
    out what is below a collapsed node. *)
Theorem selectionRange_members (t : TreeImpl) (fromNode toNode n : TreeNode) :
  same toNode fromNode = false →
  n ∈ selectionRange t (Some fromNode) toNode →
  SelectableTreeNode.is_ (Some n) = true
  ∧ ∃ root, _root t = Some root ∧ n ∈ DepthFirstTreeIterator true root.
Proof.
  intros Hne. unfold selectionRange. rewrite Hne.
  destruct (_root t) as [root|]; [|by intros H; apply elem_of_nil in H].
  destruct (validateNode t (Some toNode)) as [to|];
    [|by intros H; apply elem_of_nil in H].
  destruct (validateNode t (Some fromNode)) as [from|];
    [|by intros H; apply elem_of_nil in H].
  intros H. apply List_filter_elem in H as [H Hs]. split; [done|].
  exists root. split; [done|].
  apply (collectRange_subseteq from to n false).
  destruct (bool_decide _) in H; [by rewrite elem_of_reverse in H | done].
Qed.

Lemma selectionRange_members_witness :
  same (findNode "1.2.2") (findNode "1.1.2") = false
  ∧ findNode "1.2.1" ∈ selectionRange mockTree (Some (findNode "1.1.2")) (findNode "1.2.2")
  ∧ SelectableTreeNode.is_ (Some (findNode "1.2.1")) = true
  ∧ ∃ root, _root mockTree = Some root
            ∧ findNode "1.2.1" ∈ DepthFirstTreeIterator true root.
Proof.
  assert (findNode "1.2.1"
          ∈ selectionRange mockTree (Some (findNode "1.1.2")) (findNode "1.2.2")) as H.
  { apply list_elem_of_lookup. exists 2. vm_compute; reflexivity. }
  split; [vm_compute; reflexivity|]. split; [exact H|].
  apply (selectionRange_members mockTree (findNode "1.1.2") (findNode "1.2.2")
           (findNode "1.2.1")); [vm_compute; reflexivity | exact H].
Defined.

Lemma elem_of_same_addr (x a : TreeNode) (l : list TreeNode) :
  NoDup (addr <$> x :: l) → a ∈ x :: l → addr x = addr a → a = x.
Proof.
  rewrite fmap_cons. intros Hnd Ha E. apply NoDup_cons in Hnd as [Hx _].
  apply elem_of_cons in Ha as [->|Ha]; [done|].
  destruct Hx. rewrite E. by apply list_elem_of_fmap_2.
Qed.

Lemma elem_of_other_addr (x a : TreeNode) (l : list TreeNode) :
  a ∈ x :: l → addr x ≠ addr a → a ∈ l.
Proof. intros Ha Hne. apply elem_of_cons in Ha as [->|Ha]; done. Qed.

Lemma collectRange_started (a b : TreeNode) (it : list TreeNode) :
  NoDup (addr <$> it) → b ∈ it → addr a ∉ addr <$> it →
  ∃ mid, collectRange a b true it = mid ++ [b]
         ∧ Forall (fun m => same m a = false ∧ same m b = false) mid.
Proof.
  induction it as [|x it IH]; intros Hnd Hb Ha; [by apply elem_of_nil in Hb|].
  simpl. rewrite fmap_cons, not_elem_of_cons in Ha. destruct Ha as [Hxa Ha].
  assert (same x a = false) as Exa by (apply Nat.eqb_neq; congruence).
  rewrite Exa; simpl. destruct (same x b) eqn:Exb.
  - apply same_addr in Exb. rewrite (elem_of_same_addr x b it Hnd Hb Exb).
    exists []. split; [done | constructor].
  - assert (addr x ≠ addr b) as Hxb by (by apply Nat.eqb_neq).
    destruct IH as (mid & -> & Hmid).
    + rewrite fmap_cons in Hnd. by apply NoDup_cons in Hnd as [_ Hnd].
    + by eapply elem_of_other_addr.
    + done.
    + exists (x :: mid). split; [done | by constructor].
Qed.

(** The nodes the loop of [selectionRange] collects between two different
    nodes that the iterator both visits: the one it visits first, what is
    between the two, the one it visits second. *)
Lemma collectRange_shape (a b : TreeNode) (it : list TreeNode) :
  NoDup (addr <$> it) → a ∈ it → b ∈ it → addr a ≠ addr b →
  ∃ x mid y, collectRange a b false it = x :: mid ++ [y]
             ∧ ((x = a ∧ y = b) ∨ (x = b ∧ y = a))
             ∧ Forall (fun m => same m a = false ∧ same m b = false) mid.
Proof.
  induction it as [|h it IH]; intros Hnd Ha Hb Hab; [by apply elem_of_nil in Ha|].
  pose proof Hnd as Hnd'. rewrite fmap_cons in Hnd'.
  apply NoDup_cons in Hnd' as [Hh Hnd'].
  simpl. destruct (same h a) eqn:Eha; simpl.
  - apply same_addr in Eha. pose proof (elem_of_same_addr h a it Hnd Ha Eha) as <-.
    destruct (collectRange_started a b it Hnd') as (mid & -> & Hmid).
    + eapply elem_of_other_addr; [exact Hb | done].
    + done.
    + exists a, mid, b. split; [done|]. split; [by left | done].
  - destruct (same h b) eqn:Ehb; simpl.
    + apply same_addr in Ehb. pose proof (elem_of_same_addr h b it Hnd Hb Ehb) as <-.
      destruct (collectRange_started b a it Hnd') as (mid & Hc & Hmid).
      * eapply elem_of_other_addr; [exact Ha | done].
      * done.
      * exists b, mid, a. rewrite collectRange_comm, Hc.
        split; [done|]. split; [by right|].
        eapply Forall_impl; [exact Hmid|]. simpl. tauto.
    + apply Nat.eqb_neq in Eha, Ehb.
      destruct IH as (x & mid & y & -> & Hxy & Hmid); try done.
      * by eapply elem_of_other_addr.
      * by eapply elem_of_other_addr.
      * by exists x, mid, y.
Qed.

Lemma indexOf_from_skip (x : TreeNode) (mid rest : list TreeNode) (k : Z) :
  Forall (fun m => same m x = false) mid →
  indexOf_from x (mid ++ rest) k = indexOf_from x rest (k + Z.of_nat (length mid))%Z.
Proof.
  revert k. induction mid as [|m mid IH]; intros k Hmid; simpl.
  - f_equal. lia.
  - apply Forall_cons in Hmid as [-> Hmid]. rewrite IH by done. f_equal. lia.
Qed.

Lemma indexOf_ends (x y : TreeNode) (mid : list TreeNode) :
  same x y = false →
  Forall (fun m => same m x = false ∧ same m y = false) mid →
  indexOf (x :: mid ++ [y]) x = 0%Z
  ∧ indexOf (x :: mid ++ [y]) y = (1 + Z.of_nat (length mid))%Z.
Proof.
  intros Hxy Hmid. unfold indexOf; simpl. rewrite same_refl, Hxy. split; [done|].
  rewrite indexOf_from_skip.
  - simpl. by rewrite same_refl.
  - eapply Forall_impl; [exact Hmid|]. simpl. tauto.
Qed.

Lemma List_filter_ends (p : TreeNode → bool) (x y : TreeNode) (mid : list TreeNode) :
  p x = true → p y = true →
  List.filter p (x :: mid ++ [y]) = x :: List.filter p mid ++ [y].
Proof.
  intros Hx Hy. simpl. rewrite Hx, List.filter_app. simpl. by rewrite Hy.
Qed.

(** X15. Both ends of a range are in it, as the comment on
    [selectionRange] says: between two different selectable nodes that the
    iterator both visits, in a tree whose visited objects are all
    different, the range starts with the node it is taken from and ends
    with the node it is taken to, whichever of the two comes first in the
    tree. *)
Theorem selectionRange_runs_from_anchor_to_target (t : TreeImpl)
    (fromNode toNode root from to : TreeNode) :
  same toNode fromNode = false →
  _root t = Some root →
  validateNode t (Some toNode) = Some to →
  validateNode t (Some fromNode) = Some from →
  NoDup (addr <$> DepthFirstTreeIterator true root) →
  from ∈ DepthFirstTreeIterator true root →
  to ∈ DepthFirstTreeIterator true root →
  addr from ≠ addr to →
  SelectableTreeNode.is_ (Some from) = true →
  SelectableTreeNode.is_ (Some to) = true →
  ∃ mid, selectionRange t (Some fromNode) toNode = from :: mid ++ [to].
Proof.
  intros Hne Hroot Hto Hfrom Hnd Hf Ht Hft Hsf Hst.
  unfold selectionRange. rewrite Hne, Hroot, Hto, Hfrom.
  assert (same from to = false) as Eft by (by apply Nat.eqb_neq).
  assert (same to from = false) as Etf by (apply Nat.eqb_neq; congruence).
  destruct (collectRange_shape from to _ Hnd Hf Ht Hft)
    as (x & mid & y & -> & [[-> ->]|[-> ->]] & Hmid).
  - destruct (indexOf_ends from to mid Eft Hmid) as [-> ->].
    rewrite bool_decide_eq_false_2 by lia.
    exists (List.filter (fun n => SelectableTreeNode.is_ (Some n)) mid).
    by apply List_filter_ends.
  - destruct (indexOf_ends to from mid Etf) as [-> ->].
    { eapply Forall_impl; [exact Hmid|]. simpl. tauto. }
    rewrite bool_decide_eq_true_2 by lia.
    rewrite reverse_cons, reverse_app. simpl.
    exists (List.filter (fun n => SelectableTreeNode.is_ (Some n)) (reverse mid)).
    by apply (List_filter_ends _ from to (reverse mid)).
Qed.

Lemma selectionRange_runs_from_anchor_to_target_witness :
  same (findNode "1.1.2") (findNode "1.2.2") = false
  ∧ _root mockTree = Some MockTreeModel.MOCK_ROOT
  ∧ validateNode mockTree (Some (findNode "1.1.2")) = Some (findNode "1.1.2")
  ∧ validateNode mockTree (Some (findNode "1.2.2")) = Some (findNode "1.2.2")
  ∧ NoDup (addr <$> DepthFirstTreeIterator true MockTreeModel.MOCK_ROOT)
  ∧ findNode "1.2.2" ∈ DepthFirstTreeIterator true MockTreeModel.MOCK_ROOT
  ∧ findNode "1.1.2" ∈ DepthFirstTreeIterator true MockTreeModel.MOCK_ROOT
  ∧ addr (findNode "1.2.2") ≠ addr (findNode "1.1.2")
  ∧ SelectableTreeNode.is_ (Some (findNode "1.2.2")) = true
  ∧ SelectableTreeNode.is_ (Some (findNode "1.1.2")) = true
  ∧ ∃ mid, selectionRange mockTree (Some (findNode "1.2.2")) (findNode "1.1.2")
           = findNode "1.2.2" :: mid ++ [findNode "1.1.2"].
Proof.
  assert (NoDup (addr <$> DepthFirstTreeIterator true MockTreeModel.MOCK_ROOT)) as Hnd
    by (apply (bool_decide_unpack _); vm_compute; exact I).
  assert (findNode "1.2.2" ∈ DepthFirstTreeIterator true MockTreeModel.MOCK_ROOT) as Hf
    by (apply list_elem_of_lookup; exists 8; vm_compute; reflexivity).
  assert (findNode "1.1.2" ∈ DepthFirstTreeIterator true MockTreeModel.MOCK_ROOT) as Ht
    by (apply list_elem_of_lookup; exists 3; vm_compute; reflexivity).
  assert (addr (findNode "1.2.2") ≠ addr (findNode "1.1.2")) as Hne
    by (vm_compute; discriminate).
  split; [vm_compute; reflexivity|]. split; [vm_compute; reflexivity|].
  split; [vm_compute; reflexivity|]. split; [vm_compute; reflexivity|].
  split; [exact Hnd|]. split; [exact Hf|]. split; [exact Ht|]. split; [exact Hne|].
  split; [vm_compute; reflexivity|]. split; [vm_compute; reflexivity|].
  apply (selectionRange_runs_from_anchor_to_target mockTree
           (findNode "1.2.2") (findNode "1.1.2") MockTreeModel.MOCK_ROOT
           (findNode "1.2.2") (findNode "1.1.2"));
    first [exact Hnd | exact Hf | exact Ht | exact Hne | vm_compute; reflexivity].
Defined.

Lemma indexOf_from_bounds (x : TreeNode) (l : list TreeNode) (i : Z) :
  (indexOf_from x l i = -1 ∨ i ≤ indexOf_from x l i)%Z.
Proof.
  revert i. induction l as [|y l IH]; intros i; simpl; [by left|].
  destruct (same y x); [right; lia|].
  destruct (IH (i + 1)%Z) as [->|H]; [by left | right; lia].
Qed.

Lemma indexOf_from_lookup (x : TreeNode) (l : list TreeNode) (i k : Z) :
  indexOf_from x l i = k → k ≠ (-1)%Z →
  ∃ y, l !! Z.to_nat (k - i) = Some y ∧ same y x = true.
Proof.
  revert i. induction l as [|y l IH]; intros i; simpl; [congruence|].
  destruct (same y x) eqn:E.
  - intros <- _. exists y. by rewrite Z.sub_diag.
  - intros Hk Hne. destruct (IH _ Hk Hne) as (z & Hz & Ez).
    pose proof (indexOf_from_bounds x l (i + 1)) as Hb. rewrite Hk in Hb.
    exists z. split; [|done].
    replace (Z.to_nat (k - i)) with (S (Z.to_nat (k - (i + 1)))) by lia. done.
Qed.

Lemma collectRange_head (a b x : TreeNode) (it r : list TreeNode) :
  collectRange a b false it = x :: r → same x a || same x b = true.
Proof.
  induction it as [|h it IH]; simpl; [done|].
  destruct (same h a || same h b) eqn:E; [|done]. by intros [= <- _].
Qed.

Lemma List_filter_reverse (p : TreeNode → bool) (l : list TreeNode) :
  List.filter p (reverse l) = reverse (List.filter p l).
Proof.
  induction l as [|x l IH]; [done|].
  rewrite reverse_cons, List.filter_app, IH. simpl.
  destruct (p x); [by rewrite reverse_cons | by rewrite app_nil_r].
Qed.

(** Two different objects are not found at the same place of what the loop
    collects, unless it collects nothing. *)
Lemma collectRange_indices (a b : TreeNode) (it : list TreeNode) :
  addr a ≠ addr b →
  indexOf (collectRange a b false it) a = indexOf (collectRange a b false it) b →
  collectRange a b false it = [].
Proof.
  intros Hab Hidx. destruct (collectRange a b false it) as [|x r] eqn:E; [done|].
  exfalso. destruct (decide (indexOf (x :: r) a = (-1)%Z)) as [Ha|Ha].
  - apply collectRange_head in E. unfold indexOf in Ha, Hidx. simpl in *.
    rewrite Ha in Hidx. destruct (same x a); [done|]. destruct (same x b); [done|].
    done.
  - destruct (indexOf_from_lookup a (x :: r) 0 _ eq_refl Ha) as (y & Hy & Ey).
    assert (indexOf (x :: r) b ≠ (-1)%Z) as Hb by (by rewrite <- Hidx).
    destruct (indexOf_from_lookup b (x :: r) 0 _ eq_refl Hb) as (z & Hz & Ez).
    unfold indexOf in Hidx. rewrite <- Hidx in Hz.
    fold (indexOf (x :: r) a) in Hy, Hz. rewrite Hy in Hz. injection Hz as <-.
    apply same_addr in Ey, Ez. congruence.
Qed.

(** X16. A range is the same whichever of its two ends it is taken from,
    in the opposite order: for two different objects that do not validate
    to one and the same node, the range from [a] to [b] is the reverse of
    the range from [b] to [a]. *)
Theorem selectionRange_reverses (t : TreeImpl) (a b : TreeNode) :
  same a b = false →
  (∀ a' b', validateNode t (Some a) = Some a' → validateNode t (Some b) = Some b' →
            addr a' ≠ addr b') →
  selectionRange t (Some a) b = reverse (selectionRange t (Some b) a).
Proof.
  intros Hab Hval. unfold selectionRange.
  assert (same b a = false) as Hba.
  { apply Nat.eqb_neq. apply Nat.eqb_neq in Hab. congruence. }
  rewrite Hab, Hba. destruct (_root t) as [root|]; [|done].
  destruct (validateNode t (Some a)) as [a'|], (validateNode t (Some b)) as [b'|];
    try done.
  specialize (Hval a' b' eq_refl eq_refl).
  rewrite (collectRange_comm b' a').
  pose proof (collectRange_indices a' b' (DepthFirstTreeIterator true root) Hval) as Hidx.
  set (r := collectRange a' b' false (DepthFirstTreeIterator true root)) in *.
  destruct (decide (indexOf r a' = indexOf r b')) as [E|E].
  { rewrite (Hidx E). by repeat case_bool_decide. }
  repeat case_bool_decide; try lia.
  - apply List_filter_reverse.
  - by rewrite List_filter_reverse, reverse_involutive.
Qed.

Lemma selectionRange_reverses_witness :
  same (findNode "1.1.2") (findNode "1.2.2") = false
  ∧ (∀ a' b', validateNode mockTree (Some (findNode "1.1.2")) = Some a' →
              validateNode mockTree (Some (findNode "1.2.2")) = Some b' →
              addr a' ≠ addr b')
  ∧ selectionRange mockTree (Some (findNode "1.1.2")) (findNode "1.2.2")
    = reverse (selectionRange mockTree (Some (findNode "1.2.2")) (findNode "1.1.2")).
Proof.
  assert (∀ a' b', validateNode mockTree (Some (findNode "1.1.2")) = Some a' →
                   validateNode mockTree (Some (findNode "1.2.2")) = Some b' →
                   addr a' ≠ addr b') as H.
  { intros a' b' Ha Hb. vm_compute in Ha, Hb.
    injection Ha as <-. injection Hb as <-. vm_compute. discriminate. }
  split; [vm_compute; reflexivity|]. split; [exact H|].
  apply (selectionRange_reverses mockTree (findNode "1.1.2") (findNode "1.2.2"));
    [vm_compute; reflexivity | exact H].
Defined.

(** ** The anchor of a range *)

Lemma descending_mono (m m' : nat) (indices : list nat) :
  m ≤ m' → descending m indices → descending m' indices.
Proof. destruct indices as [|i rest]; simpl; [done|]. intros ? [? ?]. split; [lia | done]. Qed.

Lemma delete_below_last {A : Type} (l : list A) (e : A) (i : nat) :
  i < length l → delete i (l ++ [e]) = delete i l ++ [e].
Proof.
  revert i. induction l as [|x l IH]; intros i Hi; simpl in *; [lia|].
  destruct i as [|i]; [done|]. simpl. f_equal. apply IH. lia.
Qed.

Lemma spliceAll_below_last (indices : list nat) (l : list TreeSelection) (e : TreeSelection) :
  descending (length l) indices →
  spliceAll indices (l ++ [e]) = spliceAll indices l ++ [e].
Proof.
  unfold spliceAll. revert l. induction indices as [|i rest IH]; intros l; simpl; [done|].
  intros [Hi Hrest]. rewrite delete_below_last by done. apply IH.
  eapply descending_mono; [|exact Hrest]. rewrite length_delete; [lia|].
  by apply lookup_lt_is_Some_2.
Qed.

Lemma spliceAll_sublist (indices : list nat) (l : list TreeSelection) :
  spliceAll indices l `sublist_of` l.
Proof.
  unfold spliceAll. revert l. induction indices as [|i rest IH]; intros l; simpl; [done|].
  etrans; [apply IH | apply sublist_delete].
Qed.

Lemma rangeMatches_descending (t : TreeImpl) (copy : list TreeSelection)
    (lastSelection : option TreeNode) (range : TreeSelection) (n : nat) :
  descending n (rangeMatches t copy lastSelection range n).2.
Proof.
  induction n as [|i IH]; simpl; [done|].
  destruct (copy !! i) as [[nd ty]|]; [|done].
  assert (descending (S i) (rangeMatches t copy lastSelection range i).2) as IH'
    by (eapply descending_mono; [|exact IH]; lia).
  destruct ty as [| |[| |]];
    try (destruct (rangeMatches t copy lastSelection range i) as [c r];
         case_bool_decide; simpl in *; by auto).
  all: by case_bool_decide.
Qed.

Lemma rangeMatches_copy (t : TreeImpl) (copy : list TreeSelection)
    (lastSelection : option TreeNode) (range : TreeSelection) (n : nat) (e : TreeSelection) :
  last copy = Some e → type e ≠ Of RANGE →
  (rangeMatches t copy lastSelection range n).1 = copy.
Proof.
  intros Hlast Hty. induction n as [|i IH]; simpl; [done|].
  destruct (copy !! i) as [[nd ty]|] eqn:E; [|done].
  destruct ty as [| |[| |]];
    try (destruct (rangeMatches t copy lastSelection range i) as [c r];
         case_bool_decide; simpl in *; by auto).
  case_bool_decide as Hi; [|done]. exfalso.
  rewrite last_lookup in Hlast.
  replace (pred (length copy)) with i in Hlast by lia.
  rewrite E in Hlast. injection Hlast as <-. by apply Hty.
Qed.

Lemma setKeys_acc_prefix (l keys : list TreeNode) :
  ∃ more, fold_left (fun keys n => if existsb (same n) keys then keys else keys ++ [n])
            l keys = keys ++ more.
Proof.
  revert keys. induction l as [|x l IH]; intros keys; simpl.
  - exists []. by rewrite app_nil_r.
  - destruct (existsb (same x) keys); [apply IH|].
    destruct (IH (keys ++ [x])) as [more ->]. exists ([x] ++ more).
    by rewrite app_assoc.
Qed.

Lemma setKeys_app (l1 l2 : list TreeNode) :
  ∃ more, setKeys (l1 ++ l2) = setKeys l1 ++ more.
Proof. unfold setKeys. rewrite fold_left_app. apply setKeys_acc_prefix. Qed.

(** X17. A RANGE selection after a TOGGLE keeps the TOGGLE entry as the
    start of the range: the new stack ends with that entry and the new
    RANGE entry, below them are entries of the old stack in their order,
    and the selected nodes begin with the nodes of the new range, last
    node first. *)
Theorem range_keeps_its_anchor (t : TreeImpl) (below : list TreeSelection)
    (a n : TreeNode) :
  noDefault below →
  ∃ kept older,
    nextState t (mkState (below ++ [toggleOf a])) (rangeOf n)
      = Ok (mkState (kept ++ [toggleOf a; rangeOf n]))
    ∧ kept `sublist_of` below
    ∧ selectedNodes t (mkState (kept ++ [toggleOf a; rangeOf n]))
      = Ok (setKeys (reverse (selectionRange t (Some a) n)) ++ older).
Proof.
  intros Hb.
  assert (noDefault (below ++ [toggleOf a])) as Hc.
  { apply Forall_app. split; [done | by repeat constructor]. }
  pose proof (rangeMatches_descending t (below ++ [toggleOf a]) (Some a) (rangeOf n)
                (length (below ++ [toggleOf a]))) as Hd.
  pose proof (rangeMatches_copy t (below ++ [toggleOf a]) (Some a) (rangeOf n)
                (length (below ++ [toggleOf a])) (toggleOf a) (last_snoc _ _)) as H1.
  destruct (rangeMatches t (below ++ [toggleOf a]) (Some a) (rangeOf n)
              (length (below ++ [toggleOf a]))) as [c toRemove] eqn:E.
  simpl in Hd, H1. rewrite H1 in E by done. clear H1 c.
  assert (descending (length below) (tail toRemove)) as Hd'.
  { destruct toRemove as [|i rest]; [done|]. destruct Hd as [Hi Hrest]. simpl.
    eapply descending_mono; [|exact Hrest]. rewrite length_app in Hi. simpl in Hi. lia. }
  exists (spliceAll (tail toRemove) below).
  assert (noDefault (spliceAll (tail toRemove) below ++ [toggleOf a; rangeOf n])) as Hk.
  { apply Forall_app. split; [by apply noDefault_spliceAll | by repeat constructor]. }
  destruct (setKeys_app (reverse (selectionRange t (Some a) n))
              (reverse (fold_left (selectedNodes_step t)
                          (spliceAll (tail toRemove) below) ([], None)).1))
    as [older Holder].
  exists older. split; [|split; [apply spliceAll_sublist|]].
  - unfold nextState, handleRange; simpl type; cbn iota; simpl node.
    cbn [selectionStack]. rewrite (checkNoDefaultSelection_ok _ Hc).
    cbn [mbind Result_bind]. rewrite last_snoc. cbn [fmap option_fmap option_map].
    change (node (toggleOf a)) with a.
    rewrite E. by rewrite spliceAll_below_last, <- app_assoc.
  - unfold selectedNodes. cbn [selectionStack].
    rewrite (checkNoDefaultSelection_ok _ Hk). cbn [mbind Result_bind].
    rewrite fold_left_app. simpl.
    destruct (fold_left (selectedNodes_step t) (spliceAll (tail toRemove) below)
                ([], None)) as [nodes la].
    simpl in *. by rewrite removelast_last, reverse_app, Holder.
Qed.

Lemma range_keeps_its_anchor_witness :
  noDefault [toggleOf (findNode "1.1")]
  ∧ ∃ kept older,
      nextState mockTree
        (mkState ([toggleOf (findNode "1.1")] ++ [toggleOf (findNode "1.2")]))
        (rangeOf (findNode "1.3"))
      = Ok (mkState (kept ++ [toggleOf (findNode "1.2"); rangeOf (findNode "1.3")]))
      ∧ kept `sublist_of` [toggleOf (findNode "1.1")]
      ∧ selectedNodes mockTree
          (mkState (kept ++ [toggleOf (findNode "1.2"); rangeOf (findNode "1.3")]))
        = Ok (setKeys (reverse (selectionRange mockTree (Some (findNode "1.2"))
                                  (findNode "1.3"))) ++ older).
Proof.
  assert (noDefault [toggleOf (findNode "1.1")]) as H by (by repeat constructor).
  split; [exact H|].
  apply (range_keeps_its_anchor mockTree [toggleOf (findNode "1.1")]
           (findNode "1.2") (findNode "1.3") H).
Defined.

(** * More about the selection service *)

Lemma difference_elem_empty (left right : list TreeNode) (a : nat) :
  length (difference left right) = 0 → a ∈ addr <$> left → a ∈ addr <$> right.
Proof.
  intros Hl Ha. destruct (decide (a ∈ addr <$> right)) as [|Hn]; [done|].
  assert (a ∈ addr <$> difference left right) as H by (by apply difference_elem).
  apply nil_length_inv in Hl. rewrite Hl in H. by apply elem_of_nil in H.
Qed.

Lemma difference_nonempty (left right : list TreeNode) :
  length (difference left right) ≠ 0 →
  ∃ a, a ∈ addr <$> left ∧ a ∉ addr <$> right.
Proof.
  destruct (difference left right) as [|x d] eqn:E; [done|]. intros _.
  exists (addr x). apply difference_elem. rewrite E. simpl. left.
Qed.

(** The three ways [addSelection] returns: at the guard, with nothing to
    change, and with the new state committed. *)
Lemma addSelection_cases (t : TreeImpl) (svc : TreeSelectionServiceImpl) (heap : Selected)
    (arg : TreeSelection + TreeNode) (w' : TreeSelectionServiceImpl * Selected) :
  addSelection t svc heap arg = Ok w' →
  (validateNode t (Some (node (toSelection arg))) = None ∧ w' = (svc, heap))
  ∨ ∃ newState old new,
      is_Some (validateNode t (Some (node (toSelection arg))))
      ∧ nextState t (state svc) (toSelection arg) = Ok newState
      ∧ selectedNodes t (state svc) = Ok old
      ∧ selectedNodes t newState = Ok new
      ∧ ((length (difference old new) = 0 ∧ length (difference new old) = 0
          ∧ w' = (svc, heap))
         ∨ ((length (difference old new) ≠ 0 ∨ length (difference new old) ≠ 0)
            ∧ w' = ({| state := newState;
                       selectionChanged := selectionChanged svc ++ [new] |},
                    select (difference new old) (unselect (difference old new) heap)))).
Proof.
  unfold addSelection.
  destruct (validateNode t (Some (node (toSelection arg)))) as [v|];
    [|intros ?; simplify_eq; by left].
  destruct (nextState t (state svc) (toSelection arg)) as [newState|]; [|done].
  destruct (selectedNodes t (state svc)) as [old|]; [|done].
  cbn [mbind Result_bind].
  destruct (selectedNodes t newState) as [new|] eqn:Hnew; [|done].
  cbn [mbind Result_bind]. intros H. right. exists newState, old, new.
  repeat (split; [by eauto|]).
  destruct (bool_decide (length (difference old new) = 0)) eqn:E1;
    destruct (bool_decide (length (difference new old) = 0)) eqn:E2;
    cbn [andb] in H;
    try apply bool_decide_eq_true in E1; try apply bool_decide_eq_true in E2;
    try apply bool_decide_eq_false in E1; try apply bool_decide_eq_false in E2.
  1: { left. by simplify_eq. }
  all: right; unfold fireSelectionChanged in H; cbn [state] in H; rewrite Hnew in H;
    cbn [mbind Result_bind state selectionChanged] in H; simplify_eq; by auto.
Qed.

(** X18. [addSelection] of a bare node, or of a selection of type DEFAULT
    or without type, that is valid in the tree leaves exactly that node
    selected. *)
Theorem addSelection_default_selects_only_the_node (t : TreeImpl)
    (svc svc' : TreeSelectionServiceImpl) (heap heap' : Selected)
    (arg : TreeSelection + TreeNode) :
  type (toSelection arg) = Of DEFAULT →
  is_Some (validateNode t (Some (node (toSelection arg)))) →
  addSelection t svc heap arg = Ok (svc', heap') →
  ∃ M, selectedNodes t (state svc') = Ok [M] ∧ same M (node (toSelection arg)) = true.
Proof.
  intros Hty [v Hv] H.
  destruct (addSelection_cases _ _ _ _ _ H)
    as [[Hnone _]|(newState & old & new & _ & Hnext & Hold & Hnew & Hcase)];
    [congruence|].
  set (N := node (toSelection arg)) in *.
  unfold nextState in Hnext. rewrite Hty in Hnext. injection Hnext as <-.
  injection Hnew as <-.
  destruct Hcase as [(H1 & H2 & ?)|[_ ?]]; simplify_eq.
  - pose proof (selectedNodes_setKeys _ _ _ Hold) as [nodes Hn].
    pose proof (setKeys_NoDup nodes) as Hnd. rewrite <- Hn in Hnd.
    assert (addr N ∈ addr <$> old) as HN.
    { apply (difference_elem_empty [N] old); [done | simpl; left]. }
    assert (∀ a, a ∈ addr <$> old → a = addr N) as Hall.
    { intros a Ha. apply (difference_elem_empty old [N]) in Ha; [|done].
      by apply list_elem_of_singleton in Ha. }
    destruct old as [|M [|M' old]].
    + by apply elem_of_nil in HN.
    + exists M. split; [done|]. apply same_addr, Hall. simpl. left.
    + exfalso. simpl in Hnd. apply NoDup_cons in Hnd as [Hnot _]. apply Hnot.
      rewrite (Hall (addr M)) by (simpl; left).
      rewrite <- (Hall (addr M')) by (simpl; right; left). left.
  - exists N. split; [done | apply same_refl].
Qed.

Lemma addSelection_default_selects_only_the_node_witness :
  type (toSelection (inr (findNode "1.2"))) = Of DEFAULT
  ∧ is_Some (validateNode mockTree (Some (node (toSelection (inr (findNode "1.2"))))))
  ∧ addSelection mockTree
      {| state := mkState [toggleOf (findNode "1.1"); toggleOf (findNode "1.3")];
         selectionChanged := [] |}
      {[1; 10]} (inr (findNode "1.2"))
    = Ok ({| state := mkState [toggleOf (findNode "1.2")];
             selectionChanged := [[findNode "1.2"]] |}, {[4]})
  ∧ ∃ M, selectedNodes mockTree (mkState [toggleOf (findNode "1.2")]) = Ok [M]
         ∧ same M (node (toSelection (inr (findNode "1.2")))) = true.
Proof.
  assert (addSelection mockTree
            {| state := mkState [toggleOf (findNode "1.1"); toggleOf (findNode "1.3")];
               selectionChanged := [] |}
            {[1; 10]} (inr (findNode "1.2"))
          = Ok ({| state := mkState [toggleOf (findNode "1.2")];
                   selectionChanged := [[findNode "1.2"]] |}, {[4]})) as H.
  { vm_compute; reflexivity. }
  split; [reflexivity|]. split; [vm_compute; eauto|]. split; [exact H|].
  assert (is_Some (validateNode mockTree
                     (Some (node (toSelection (inr (findNode "1.2"))))))) as Hv
    by (vm_compute; eauto).
  exact (addSelection_default_selects_only_the_node mockTree _ _ _ _
           (inr (findNode "1.2")) eq_refl Hv H).
Defined.

Lemma addSelection_lastTold (t : TreeImpl) (svc : TreeSelectionServiceImpl) (heap : Selected)
    (arg : TreeSelection + TreeNode) (w' : TreeSelectionServiceImpl * Selected) :
  selectedNodes t (state svc) = Ok (lastTold svc) →
  addSelection t svc heap arg = Ok w' →
  selectedNodes t (state w'.1) = Ok (lastTold w'.1).
Proof.
  intros Hinv H.
  destruct (addSelection_cases _ _ _ _ _ H)
    as [[_ ->]|(newState & old & new & _ & _ & _ & Hnew & [(_ & _ & ->)|[_ ->]])];
    try done.
  unfold lastTold. simpl. by rewrite last_snoc.
Qed.

(** X19. After any sequence of [addSelection] calls on a fresh service, the
    nodes the service reports as selected are the ones its last
    [onSelectionChanged] event carried, and none if it has fired no event
    yet. *)
Theorem listeners_know_the_selection (t : TreeImpl)
    (args : list (TreeSelection + TreeNode)) (heap : Selected) :
  selectedNodes t (state (addSelections t args (newService, heap)).1)
  = Ok (lastTold (addSelections t args (newService, heap)).1).
Proof.
  assert (∀ w, selectedNodes t (state w.1) = Ok (lastTold w.1) →
               selectedNodes t (state (addSelections t args w).1)
               = Ok (lastTold (addSelections t args w).1)) as Hgen.
  { induction args as [|arg args IH]; intros [svc h] Hw; simpl; [done|].
    destruct (addSelection t svc h arg) as [w'|] eqn:E; apply IH; [|done].
    by apply (addSelection_lastTold t svc h arg). }
  by apply Hgen.
Qed.

(** X20. A valid [addSelection] that returns commits the next state and
    fires [onSelectionChanged] exactly when the set of selected nodes
    changes; the one event it fires carries the new selection.  When the
    set stays the same, the service keeps the state it had, whatever the
    next state would have been, and nothing is fired. *)
Theorem addSelection_fires_iff_the_selection_changes (t : TreeImpl)
    (svc svc' : TreeSelectionServiceImpl) (heap heap' : Selected)
    (arg : TreeSelection + TreeNode) :
  is_Some (validateNode t (Some (node (toSelection arg)))) →
  addSelection t svc heap arg = Ok (svc', heap') →
  ∃ newState old new,
    nextState t (state svc) (toSelection arg) = Ok newState
    ∧ selectedNodes t (state svc) = Ok old
    ∧ selectedNodes t newState = Ok new
    ∧ (((∀ N, indexOf old N ≠ (-1)%Z ↔ indexOf new N ≠ (-1)%Z)
        ∧ svc' = svc ∧ heap' = heap)
       ∨ (¬ (∀ N, indexOf old N ≠ (-1)%Z ↔ indexOf new N ≠ (-1)%Z)
          ∧ state svc' = newState
          ∧ selectionChanged svc' = selectionChanged svc ++ [new])).
Proof.
  intros [v Hv] H.
  destruct (addSelection_cases _ _ _ _ _ H)
    as [[Hnone _]|(newState & old & new & _ & Hnext & Hold & Hnew & Hcase)];
    [congruence|].
  exists newState, old, new. repeat (split; [done|]).
  destruct Hcase as [(H1 & H2 & ?)|[Hd ?]]; simplify_eq.
  - left. split; [|done]. intros N. rewrite !indexOf_found. unfold occurs.
    split; by apply difference_elem_empty.
  - right. split; [|done]. intros Hsame.
    assert (∀ l r, (∀ N, indexOf l N ≠ (-1)%Z → indexOf r N ≠ (-1)%Z) →
                   length (difference l r) = 0) as Hempty.
    { intros l r Hlr. unfold difference.
      induction l as [|x l IH]; simpl; [done|].
      assert (indexOf r x ≠ (-1)%Z) as Hx.
      { apply Hlr. apply indexOf_found. unfold occurs. simpl. left. }
      rewrite bool_decide_eq_false_2 by done. apply IH. intros N HN. apply Hlr.
      apply indexOf_found. apply indexOf_found in HN. unfold occurs in *.
      simpl. by right. }
    destruct Hd as [Hd|Hd]; apply Hd, Hempty; intros N; by apply Hsame.
Qed.

Lemma addSelection_fires_iff_the_selection_changes_witness :
  is_Some (validateNode mockTree (Some (node (toSelection (inl (rangeOf (findNode "1.1")))))))
  ∧ addSelection mockTree
      {| state := mkState [toggleOf (findNode "1.1")]; selectionChanged := [] |}
      {[1]} (inl (rangeOf (findNode "1.1")))
    = Ok ({| state := mkState [toggleOf (findNode "1.1")]; selectionChanged := [] |},
          {[1]})
  ∧ ∃ newState old new,
      nextState mockTree (mkState [toggleOf (findNode "1.1")])
        (toSelection (inl (rangeOf (findNode "1.1")))) = Ok newState
      ∧ selectedNodes mockTree (mkState [toggleOf (findNode "1.1")]) = Ok old
      ∧ selectedNodes mockTree newState = Ok new
      ∧ (((∀ N, indexOf old N ≠ (-1)%Z ↔ indexOf new N ≠ (-1)%Z)
          ∧ {| state := mkState [toggleOf (findNode "1.1")]; selectionChanged := [] |}
            = {| state := mkState [toggleOf (findNode "1.1")]; selectionChanged := [] |}
          ∧ ({[1]} : Selected) = {[1]})
         ∨ (¬ (∀ N, indexOf old N ≠ (-1)%Z ↔ indexOf new N ≠ (-1)%Z)
            ∧ mkState [toggleOf (findNode "1.1")] = newState
            ∧ [] = [] ++ [new])).
Proof.
  assert (is_Some (validateNode mockTree
            (Some (node (toSelection (inl (rangeOf (findNode "1.1")))))))) as Hv
    by (vm_compute; eauto).
  assert (addSelection mockTree
            {| state := mkState [toggleOf (findNode "1.1")]; selectionChanged := [] |}
            {[1]} (inl (rangeOf (findNode "1.1")))
          = Ok ({| state := mkState [toggleOf (findNode "1.1")]; selectionChanged := [] |},
                {[1]})) as H
    by (vm_compute; reflexivity).
  split; [exact Hv|]. split; [exact H|].
  exact (addSelection_fires_iff_the_selection_changes mockTree _ _ _ _
           (inl (rangeOf (findNode "1.1"))) Hv H).
Defined.

(** * Decorations *)

Section DecoratorFacts.

Variable Data : Type.




Lemma deflateDecorators_id (decorations : gmap string (list Data)) :
  deflateDecorators Data decorations = decorations.
Proof.
  unfold deflateDecorators.
  apply (map_fold_weak_ind (fun r m => r = m)); [done|].
  by intros k x m r _ ->.
Qed.

Lemma inflateDecorators_acc (state : gmap string (list Data)) (keys : list string)
    (decorators : gmap string (list Data)) (i : string) :
  (∀ k, k ∈ keys → is_Some (state !! k)) →
  fold_left
    (fun decorators id =>
       match state !! id with
       | Some data => <[id := data]> decorators
       | None => decorators
       end) keys decorators !! i
  = if decide (i ∈ keys) then state !! i else decorators !! i.
Proof.
  revert decorators. induction keys as [|k keys IH]; intros decorators Hk; simpl; [done|].
  rewrite IH by (intros; apply Hk; by right).
  destruct (Hk k) as [x Hx]; [by left|]. rewrite Hx.
  destruct (decide (i ∈ keys)) as [Hin|Hin].
  - rewrite decide_True; [done | by right].
  - destruct (decide (i = k)) as [->|Hne].
    + rewrite decide_True by (by left). by rewrite lookup_insert_eq.
    + rewrite decide_False by (rewrite elem_of_cons; tauto).
      by rewrite lookup_insert_ne.
Qed.

Lemma inflateDecorators_id (state : gmap string (list Data)) :
  inflateDecorators Data state = state.
Proof.
  apply map_eq. intros i. unfold inflateDecorators.
  rewrite inflateDecorators_acc.
  - case_decide as Hi; [done|]. rewrite lookup_empty. symmetry.
    apply eq_None_not_Some. intros [x Hx]. apply Hi.
    apply list_elem_of_fmap. exists (i, x). split; [done|].
    by apply elem_of_map_to_list.
  - intros k Hk. apply list_elem_of_fmap in Hk as ([k' x] & -> & Hx).
    apply elem_of_map_to_list in Hx. by exists x.
Qed.

(** X22. [inflateDecorators] undoes [deflateDecorators] and the other way
    round: the map that comes back has the same decoration data under the
    same node ids. *)
Theorem deflate_inflate_round_trip (decorations : gmap string (list Data)) :
  inflateDecorators Data (deflateDecorators Data decorations) = decorations
  ∧ deflateDecorators Data (inflateDecorators Data decorations) = decorations.
Proof.
  split.
  - by rewrite deflateDecorators_id, inflateDecorators_id.
  - by rewrite inflateDecorators_id, deflateDecorators_id.
Qed.

End DecoratorFacts.

(** * The fixture builder *)

Lemma Node_nested_ind (P : MockTreeModel.Node → Prop) :
  (∀ i cs, Forall P (default [] cs) → P (MockTreeModel.node i cs)) →
  ∀ root, P root.
Proof.
  intros Hnode. fix IH 1. intros [i cs]. apply Hnode.
  destruct cs as [l|]; [|constructor]. simpl.
  induction l as [|c l IHl]; constructor; [apply IH | exact IHl].
Qed.

Lemma idsOf_unfold (i : string) (cs : option (list MockTreeModel.Node)) :
  idsOf (MockTreeModel.node i cs) = i :: flat_map idsOf (default [] cs).
Proof. by destruct cs. Qed.

Lemma toTreeNode_unfold (i : string) (cs : option (list MockTreeModel.Node))
    (p : option nat) (next : nat) :
  MockTreeModel.toTreeNode (MockTreeModel.node i cs) p next
  = let '(children, next') := toTreeNodes (default [] cs) (Some next) (S next) in
    match children with
    | [] => (mkTreeNode next i p true None (Some []), next')
    | _ => (mkTreeNode next i p true (Some true) (Some children), next')
    end.
Proof.
  destruct cs as [l|]; [|reflexivity]. simpl.
  match goal with |- context [ ?f l (S next) ] => set (build := f) end.
  assert (∀ l n, build l n = toTreeNodes l (Some next) n) as ->; [|done].
  clear. intros l. induction l as [|c l IH]; intros n; [done|].
  simpl. destruct (MockTreeModel.toTreeNode c (Some next) n) as [m n'].
  by rewrite IH.
Qed.

Lemma toTreeNodes_built (l : list MockTreeModel.Node) :
  Forall built l →
  ∀ (p : option nat) (next : nat),
    id <$> flat_map subtree (toTreeNodes l p next).1 = flat_map idsOf l
    ∧ addr <$> flat_map subtree (toTreeNodes l p next).1
      = seq next (length (flat_map idsOf l))
    ∧ (toTreeNodes l p next).2 = next + length (flat_map idsOf l)
    ∧ Forall (fun c : TreeNode => parent c = p) (toTreeNodes l p next).1
    ∧ Forall wellFormed (flat_map subtree (toTreeNodes l p next).1)
    ∧ length (toTreeNodes l p next).1 = length l.
Proof.
  induction 1 as [|c l Hc _ IH]; intros p next; simpl.
  - repeat split; first [done | constructor | lia].
  - destruct (Hc p next) as (Hi & Ha & Hn & Hp & Hw).
    destruct (MockTreeModel.toTreeNode c p next) as [m n'] eqn:Em. simpl in *.
    destruct (IH p n') as (Hi' & Ha' & Hn' & Hp' & Hw' & Hl).
    destruct (toTreeNodes l p n') as [ms n''] eqn:Ems. simpl in *.
    rewrite !fmap_app, Hi, Ha, Hi', Ha', length_app, seq_app, Hn.
    repeat split; try done.
    + lia.
    + by constructor.
    + by apply Forall_app.
    + by rewrite Hl.
Qed.

Lemma toTreeNode_built (root : MockTreeModel.Node) : built root.
Proof.
  induction root as [i cs IH] using Node_nested_ind. intros p next.
  rewrite toTreeNode_unfold, idsOf_unfold.
  destruct (toTreeNodes_built _ IH (Some next) (S next)) as (Hi & Ha & Hn & Hp & Hw & Hl).
  destruct (toTreeNodes (default [] cs) (Some next) (S next)) as [ms n'] eqn:E.
  cbn [fst snd] in Hi, Ha, Hn, Hp, Hw, Hl.
  destruct ms as [|m ms].
  - destruct (default [] cs); [|done]. simpl.
    repeat split; first [done | simpl in Hn; lia | repeat constructor].
  - cbn [fst snd]. rewrite subtree_unfold.
    change (childrenOf _) with (m :: ms).
    rewrite !fmap_cons, Hi, Ha. cbn [id addr parent length seq].
    repeat split; try done; [lia|].
    constructor; [|done]. by repeat split.
Qed.

Lemma pruning_keeps_expanded (n : TreeNode) :
  Forall (fun m => ExpandableTreeNode.isCollapsed (Some m) = false) (subtree n) →
  DepthFirstTreeIterator true n = subtree n.
Proof.
  induction n as [n Hn|n cs Hcs IH] using TreeNode_nested_ind; intros H.
  - destruct n as [a i p s e c]. simpl in Hn. subst c. reflexivity.
  - rewrite subtree_unfold in H. apply Forall_cons in H as [Hc H].
    destruct n as [a i p s e c]. simpl in Hcs. subst c.
    change (childrenOf _) with cs in H.
    unfold subtree. cbn [DepthFirstTreeIterator children].
    rewrite Hc. simpl. f_equal.
    induction IH as [|c cs' Hc' _ IH']; [done|]. simpl in *.
    apply Forall_app in H as [H1 H2].
    by rewrite Hc', IH'.
Qed.

(** X23. [Node.toTreeNode] builds one new object per node of the
    description, the node before its children and the children from left
    to right, with the ids of the description: every node of the result is
    selectable, none is collapsed, every child names the node above it as
    its parent, and the pruning iterator visits all of it. *)
Theorem toTreeNode_builds_the_description (root : MockTreeModel.Node)
    (p : option nat) (next : nat) :
  id <$> subtree (MockTreeModel.toTreeNode root p next).1 = idsOf root
  ∧ addr <$> subtree (MockTreeModel.toTreeNode root p next).1
    = seq next (length (idsOf root))
  ∧ parent (MockTreeModel.toTreeNode root p next).1 = p
  ∧ Forall (fun n : TreeNode =>
              selectable n = true
              ∧ ExpandableTreeNode.isCollapsed (Some n) = false
              ∧ Forall (fun c : TreeNode => parent c = Some (addr n)) (childrenOf n))
      (subtree (MockTreeModel.toTreeNode root p next).1)
  ∧ DepthFirstTreeIterator true (MockTreeModel.toTreeNode root p next).1
    = subtree (MockTreeModel.toTreeNode root p next).1.
Proof.
  destruct (toTreeNode_built root p next) as (Hi & Ha & _ & Hp & Hw).
  repeat split; try done.
  apply pruning_keeps_expanded. eapply Forall_impl; [exact Hw|].
  by intros n (_ & H & _).
Qed.
